(** * The Euler integrator of [session_02/Python_Intro/2_odes.ipynb]

    A shallow embedding of [solve_ode_euler], of the NumPy calls it makes
    ([np.linspace], [np.zeros], indexed reads and writes of an array) and of
    the notebook cells around it ([exp_decay_dt], [solve_and_plot]).

    The arithmetic of the notebook is binary64.  The solver is written once
    over an interface [PyFloat] of the operations it uses and instantiated
    twice: with the kernel's binary64 floats, the arithmetic of CPython and
    NumPy, and with the canonical rationals [Qc], the same operations
    without rounding.  What the code returns and raises is stated for any
    instance, or for binary64 through the specification of its operations
    ([FloatAxioms]) and by evaluation; the rationals serve the statements
    about the method that rounding does not affect. *)

#[local] Set Warnings "-inexact-float".
From Stdlib Require Import ZArith QArith Qcanon Qround Qpower Reals Qreals.
From Stdlib Require Import Lra Lia.
From Stdlib Require Qcabs.
From Stdlib Require Import Floats.PrimFloat Floats.SpecFloat Floats.FloatOps.
From Stdlib Require Import Floats.FloatAxioms Floats.FloatLemmas.
From Stdlib Require Import Numbers.Cyclic.Int63.Uint63.
From stdpp Require Import base numbers option list.

Set Default Proof Using "Type".

(** ** Python exceptions and the call/exception monad *)

(** The exceptions that the solver and the NumPy calls in it can raise, and
    [Raised], an exception of the caller's own raised by the derivative
    function. *)
Inductive exn : Type :=
  | ZeroDivisionError
  | ValueError
  | IndexError
  | OverflowError
  | Raised (code : nat).

#[global] Instance exn_eq_dec : EqDecision exn.
Proof. solve_decision. Defined.

(** The outcome of an expression: an exception or a value. *)
Definition res (X : Type) : Type := exn + X.

(** A computation that may call the derivative function: the calls made, in
    order, each recorded with its arguments [(y, t)], and the outcome. *)
Definition M (A X : Type) : Type := list (A * A) * res X.

Definition ret {A X} (x : X) : M A X := ([], inr x).

Definition bind {A X Y} (m : M A X) (k : X → M A Y) : M A Y :=
  match m with
  | (log, inl e) => (log, inl e)
  | (log, inr x) => let '(log', r) := k x in (log ++ log', r)
  end.

(** An expression that makes no call. *)
Definition lift {A X} (r : res X) : M A X := ([], r).

(** A call of the caller-supplied derivative function. *)
Definition call {A} (dydt : A → A → res A) (y t : A) : M A A :=
  ([(y, t)], dydt y t).

Definition calls {A X} (m : M A X) : list (A * A) := fst m.
Definition result {A X} (m : M A X) : res X := snd m.

#[global] Instance M_ret {A} : MRet (M A) := λ X, ret.
#[global] Instance M_bind {A} : MBind (M A) := λ X Y k m, bind m k.

(** ** The arithmetic the solver uses *)

Class PyFloat (A : Type) := {
  fzero : A;
  fadd : A → A → A;
  fsub : A → A → A;
  fmul : A → A → A;
  fopp : A → A;
  (** NumPy's true division *)
  fdiv : A → A → A;
  (** [x == 0] *)
  is_zero : A → bool;
  (** conversion of a Python integer *)
  of_int : Z → A;
  (** Python's [int(x)]: truncation toward zero *)
  to_int : A → res Z;
}.

(** The initial state as a caller can pass it: a number, or the empty
    sequence [[]]. *)
Inductive initial (A : Type) : Type :=
  | Scalar (y : A)
  | Empty.

Arguments Scalar {A} y.
Arguments Empty {A}.

Section Solver.
Context {A : Type} `{PyFloat A}.

(** Python's [a / b] on Python numbers, which is what the notebook passes
    for [Dt] and [t_end] (the defaults [0.1] and [10], the value of the
    slider): a zero divisor raises.  A NumPy scalar as divisor would give
    [inf] or [nan] instead; such arguments are not modelled. *)
Definition py_div (a b : A) : res A :=
  if is_zero b then inl ZeroDivisionError else inr (fdiv a b).

(** [arr[i]] and [arr[i] = v] on a one-dimensional array, for [i >= 0]. *)
Definition getitem (arr : list A) (i : nat) : res A :=
  match arr !! i with
  | Some v => inr v
  | None => inl IndexError
  end.

Definition setitem (arr : list A) (i : nat) (v : A) : res (list A) :=
  if decide (i < length arr) then inr (<[i:=v]> arr) else inl IndexError.

(** [np.zeros(num)] *)
Definition zeros (num : Z) : res (list A) :=
  if (num <? 0)%Z then inl ValueError
  else inr (replicate (Z.to_nat num) fzero).

(** [np.arange(0, num)] as floats *)
Definition arange (num : nat) : list A :=
  (λ i, of_int (Z.of_nat i)) <$> seq 0 num.

(** [np.linspace(start, stop, num)], with [endpoint=True]:
<<
    if num < 0: raise ValueError
    div = num - 1
    y = arange(0, num)
    delta = stop - start
    if div > 0:
        step = delta / div
        if step == 0: y = y / div; y = y * delta
        else:         y = y * step
    else:
        y = y * delta
    y += start
    if num > 1: y[-1] = stop
>> *)
Definition linspace (start stop : A) (num : Z) : res (list A) :=
  if (num <? 0)%Z then inl ValueError
  else
    let n := Z.to_nat num in
    let div := of_int (num - 1) in
    let y := arange n in
    let delta := fsub stop start in
    let y :=
      if (0 <? num - 1)%Z then
        let step := fdiv delta div in
        if is_zero step
        then (λ v, fmul (fdiv v div) delta) <$> y
        else (λ v, fmul v step) <$> y
      else (λ v, fmul v delta) <$> y in
    let y := (λ v, fadd v start) <$> y in
    inr (if (1 <? num)%Z then <[pred n := stop]> y else y).

(** One turn of the loop of [solve_ode_euler]:
    [y_values[i+1] = y_values[i] + dydt(y_values[i], t_values[i]) * Dt] *)
Definition euler_body (dydt : A → A → res A) (Dt : A) (t_values : list A)
    (i : nat) (y_values : list A) : M A (list A) :=
  yi ← lift (getitem y_values i);
  ti ← lift (getitem t_values i);
  d ← call dydt yi ti;
  lift (setitem y_values (i + 1) (fadd yi (fmul d Dt))).

(** [for i in idx: y_values = body i y_values] *)
Fixpoint for_each (idx : list nat) (body : nat → list A → M A (list A))
    (y_values : list A) : M A (list A) :=
  match idx with
  | [] => ret y_values
  | i :: idx' => y_values' ← body i y_values; for_each idx' body y_values'
  end.

(** [range(n)] for a Python integer [n]: empty when [n <= 0]. *)
Definition range (n : Z) : list nat := seq 0 (Z.to_nat n).

(** [solve_ode_euler(dydt, y0, Dt, t_end)]:
<<
    n_steps = int(t_end / Dt)
    t_values = np.linspace(0, t_end, n_steps + 1)
    y_values = np.zeros(n_steps + 1)
    y_values[0] = y0
    for i in range(n_steps):
        y_values[i+1] = y_values[i] + dydt(y_values[i], t_values[i]) * Dt
    return t_values, y_values
>>
    [y_values] is a one-dimensional array of floats: the state is a scalar. *)
Definition solve_ode_euler (dydt : A → A → res A) (y0 Dt t_end : A)
    : M A (list A * list A) :=
  q ← lift (py_div t_end Dt);
  n_steps ← lift (to_int q);
  t_values ← lift (linspace fzero t_end (n_steps + 1));
  y_values ← lift (zeros (n_steps + 1));
  y_values ← lift (setitem y_values 0 y0);
  y_values ← for_each (range n_steps) (euler_body dydt Dt t_values) y_values;
  ret (t_values, y_values).

(** [y_values[0] = y0].  The index is resolved first; then the value is
    converted to a float, which raises ValueError for a sequence. *)
Definition store_initial (y_values : list A) (y0 : initial A)
    : res (list A) :=
  match y0 with
  | Scalar y => setitem y_values 0 y
  | Empty =>
      if decide (0 < length y_values) then inl ValueError else inl IndexError
  end.

(** [solve_ode_euler(dydt, y0, Dt, t_end)] once more, the same statements,
    with an initial state that may be the empty sequence. *)
Definition solve_ode_euler_initial (dydt : A → A → res A)
    (y0 : initial A) (Dt t_end : A) : M A (list A * list A) :=
  q ← lift (py_div t_end Dt);
  n_steps ← lift (to_int q);
  t_values ← lift (linspace fzero t_end (n_steps + 1));
  y_values ← lift (zeros (n_steps + 1));
  y_values ← lift (store_initial y_values y0);
  y_values ← for_each (range n_steps) (euler_body dydt Dt t_values) y_values;
  ret (t_values, y_values).

(** [exp_decay_dt(y, t, k=1)]: [return -k * y] *)
Definition exp_decay_dt (y t : A) (k : A) : A := fmul (fopp k) y.

(** [solve_and_plot(Dt)] of [2_odes.ipynb], up to the two [plt.plot] calls:
    the trajectory that is handed to them.
<<
    y0 = 10
    t_values, y_values = solve_ode_euler(dydt=exp_decay_dt, y0=y0, Dt=Dt, t_end=10)
>> *)
Definition solve_and_plot (Dt : A) : M A (list A * list A) :=
  let y0 := of_int 10 in
  solve_ode_euler (λ y t, inr (exp_decay_dt y t (of_int 1))) y0 Dt (of_int 10).

(** The loop of [solve_ode_euler] as a recursion on the time points still to
    visit: from the state [y], the states that follow it. *)
Fixpoint euler_from (dydt : A → A → res A) (Dt : A) (ts : list A) (y : A)
    : M A (list A) :=
  match ts with
  | [] => ret []
  | t :: ts' =>
      d ← call dydt y t;
      ys ← euler_from dydt Dt ts' (fadd y (fmul d Dt));
      ret (fadd y (fmul d Dt) :: ys)
  end.

(** *** The Euler method as the specification words it

    "At each step, evaluate the derivative function at the current (state,
    time), multiply every derivative component by the step size, and add it
    to the current state to obtain the next state; advance time by the step
    size; repeat until the horizon is reached", the trajectory "starting at
    time 0 with the initial state".  [n] is the number of steps. *)
Fixpoint euler_reference_from (dydt : A → A → res A) (Dt : A) (n : nat)
    (t y : A) : M A (list (A * A)) :=
  match n with
  | O => ret []
  | S n' =>
      d ← call dydt y t;
      rest ← euler_reference_from dydt Dt n' (fadd t Dt) (fadd y (fmul d Dt));
      ret ((fadd t Dt, fadd y (fmul d Dt)) :: rest)
  end.

Definition euler_reference (dydt : A → A → res A) (y0 Dt : A) (n : nat)
    : M A (list (A * A)) :=
  rest ← euler_reference_from dydt Dt n fzero y0;
  ret ((fzero, y0) :: rest).

(** The trajectory of a run as the sequence of its (time, state) samples. *)
Definition trajectory (m : M A (list A * list A)) : M A (list (A * A)) :=
  '(t_values, y_values) ← m; ret (zip t_values y_values).

(** The last state of the trajectory of a run. *)
Definition final_state (m : M A (list A * list A)) : option A :=
  match result m with
  | inl _ => None
  | inr (_, y_values) => last y_values
  end.

End Solver.

(** ** Arithmetic without rounding: the rationals *)

(** The code computes in binary64: [np.zeros] and [np.linspace] build arrays
    of floats and the states are stored in one.  The rationals are the same
    operations without rounding, overflow, infinities or NaN; a statement
    proved on them is a statement about the method, and it says so.  The
    counts and the values that the code returns are those of
    [float_PyFloat] below. *)

(** [int(q)]: the quotient of numerator by denominator, rounded toward zero. *)
Definition Qc_trunc (q : Qc) : Z := Z.quot (Qnum q) (Zpos (Qden q)).

#[global] Instance Qc_PyFloat : PyFloat Qc := {|
  fzero := 0%Qc;
  fadd := Qcplus;
  fsub := Qcminus;
  fmul := Qcmult;
  fopp := Qcopp;
  fdiv := Qcdiv;
  is_zero q := bool_decide (q = 0%Qc);
  of_int := Qc_of_Z;
  to_int q := inr (Qc_trunc q);
|}.

(** ** Binary64 arithmetic *)

(** The integer part of a finite binary64 number [(-1)^s * m * 2^e]. *)
Definition SF_trunc (x : spec_float) : res Z :=
  match x with
  | S754_zero _ => inr 0%Z
  | S754_infinity _ => inl OverflowError
  | S754_nan => inl ValueError
  | S754_finite s m e =>
      let a := match e with
               | Z0 => Zpos m
               | Zpos p => (Zpos m * 2 ^ Zpos p)%Z
               | Zneg p => (Zpos m / 2 ^ Zpos p)%Z
               end in
      inr (if s then (- a)%Z else a)
  end.

(** The binary64 number nearest to an integer [z], for [|z| < 2^63]. *)
Definition float_of_Z (z : Z) : float :=
  match z with
  | Z0 => 0%float
  | Zpos _ => PrimFloat.of_uint63 (Uint63.of_Z z)
  | Zneg p => PrimFloat.opp (PrimFloat.of_uint63 (Uint63.of_Z (Zpos p)))
  end.

#[global] Instance float_PyFloat : PyFloat float := {|
  fzero := 0%float;
  fadd := PrimFloat.add;
  fsub := PrimFloat.sub;
  fmul := PrimFloat.mul;
  fopp := PrimFloat.opp;
  fdiv := PrimFloat.div;
  is_zero x := PrimFloat.eqb x 0%float;
  of_int := float_of_Z;
  to_int x := SF_trunc (Prim2SF x);
|}.

(** The canonical rational [a / b]. *)
Definition frac (a : Z) (b : positive) : Qc := Q2Qc (a # b).

(** The time grid that [np.linspace(0, t_end, n + 1)] builds, in closed
    form: the multiples [i * (t_end / n)] for [i = 0, ..., n]. *)
Definition grid (t_end : Qc) (n : Z) : list Qc :=
  (λ i, Qc_of_Z (Z.of_nat i) * (t_end / Qc_of_Z n))%Qc <$> seq 0 (Z.to_nat n + 1).

(** The [m] time points [i * Dt, (i + 1) * Dt, ...] of a grid whose points
    are [Dt] apart. *)
Definition steps (Dt : Qc) (i m : nat) : list Qc :=
  (λ j : nat, Qc_of_Z (Z.of_nat j) * Dt)%Qc <$> seq i m.

(** ** The harness: a slider bound to [solve_and_plot] *)

(** The range that [interact] is given for a parameter, as in
    [interact(solve_and_plot, Dt=(0.0, 2.0, 0.1))]: (min, max, step). *)
Record descriptor : Type := Descriptor {
  d_min : Qc;
  d_max : Qc;
  d_step : Qc;
}.

(** [Dt=(0.0, 2.0, 0.1)] *)
Definition Dt_slider : descriptor :=
  {| d_min := frac 0 1; d_max := frac 2 1; d_step := frac 1 10 |}.

(** Modelled from the spec: the range enforcement of the slider, which is
    done by the widget library and is not in the notebooks.  "If a parameter
    value is out of its declared [minimum, maximum] range, clamp it
    silently". *)
Definition clamp (d : descriptor) (v : Qc) : Qc :=
  if decide (v < d_min d)%Qc then d_min d
  else if decide (d_max d < v)%Qc then d_max d
  else v.

(** Modelled from the spec: the reaction of the harness to a change of the
    parameter to [v], which is the widget library's too.  "On every
    parameter-value change event, recompute the full trajectory": the
    callback bound by [interact(solve_and_plot, Dt=...)] is run on the value
    that the slider holds after the change. *)
Definition interact {X} (f : Qc → M Qc X) (d : descriptor) (v : Qc) : M Qc X :=
  f (clamp d v).

(** ** Reading a binary64 number exactly *)

(** The rational that a finite binary64 number denotes. *)
Definition SF2Q (x : spec_float) : option Q :=
  match x with
  | S754_zero _ => Some 0%Q
  | S754_finite s m e =>
      Some (inject_Z (if s then Zneg m else Zpos m) * Qpower 2 e)%Q
  | S754_infinity _ | S754_nan => None
  end.

Definition float_to_Q (x : float) : option Q := SF2Q (Prim2SF x).

(** The outcome of a run, with every number shown as a plain fraction. *)
Definition show {X Y} (f : X → Y) (m : M X (list X * list X))
    : M Y (list Y * list Y) :=
  (prod_map f f <$> calls m,
   match result m with
   | inl e => inl e
   | inr (ts, ys) => inr (f <$> ts, f <$> ys)
   end).


(** A derivative function that raises from the second call on. *)
Definition raising_dydt (y t : float) : res float :=
  if PrimFloat.eqb t 0%float then inr (PrimFloat.opp y) else inl (Raised 7).

(** The time values of a run; none when it raised. *)
Definition time_values {A} (m : M A (list A * list A)) : list A :=
  match result m with
  | inl _ => []
  | inr (t_values, _) => t_values
  end.

(** The samples of a trajectory; none when the run raised. *)
Definition samples {A} (m : M A (list (A * A))) : list (A * A) :=
  match result m with
  | inl _ => []
  | inr tr => tr
  end.

(** A derivative that depends on the time only: [dy/dt = t]. *)
Definition ramp_dt {A} (y t : A) : res A := inr t.

(** * The model of [unnamed/part_000] *)

(** ** The coupled system with a cubic term *)

(** [lv_system(x, t, a, b, g, d, e)] on exact numbers: Python integers and
    [Fraction]s, on which [+], [-], [*] and [**] neither round nor raise.
    (On floats the products round and [**] can raise OverflowError; floats
    are not modelled here.)  [x[0]] and [x[1]] raise IndexError on a list
    that is too short, and the time [t] is not used. *)
Section CubicSystem.
Local Open Scope Qc_scope.

Definition lv_system (x : list Qc) (t a b g d e : Qc) : res (list Qc) :=
  match getitem x 0%nat, getitem x 1%nat with
  | inr x0, inr x1 =>
      let dx_dt := a * x0 - b * x0 ^ 2 - g * x0 * x1 in
      let dy_dt := d * x1 - e * x1 ^ 3 - x0 * x1 in
      inr [dx_dt; dy_dt]
  | inl err, _ | _, inl err => inl err
  end.
End CubicSystem.

(** * Properties *)

(** Evaluation of a closed lookup in a list of samples. *)
Ltac eval_sample :=
  vm_compute; do 2 f_equal; apply Qc_is_canon; reflexivity.

(** A run of two steps, every number shown as a plain fraction. *)
Example exact_run :
  show this (solve_ode_euler (λ y t, inr (exp_decay_dt y t (frac 1 1)))
               (frac 10 1) (frac 1 2) (frac 1 1))
  = ([(10#1, 0#1); (5#1, 1#2)],
     inr ([0#1; 1#2; 1#1], [10#1; 5#1; 5#2])).
Proof. vm_compute. reflexivity. Qed.

(** ** The monad *)

Section MonadLemmas.
Context {A : Type}.

Lemma bind_lift_inr {X Y} (x : X) (k : X → M A Y) :
  (lift (inr x) ≫= k) = k x.
Proof. unfold mbind, M_bind, bind, lift. by destruct (k x). Qed.

Lemma bind_ret {X Y} (x : X) (k : X → M A Y) : (ret x ≫= k) = k x.
Proof. apply bind_lift_inr. Qed.

Lemma bind_assoc {X Y Z} (m : M A X) (k : X → M A Y) (h : Y → M A Z) :
  ((m ≫= k) ≫= h) = (m ≫= λ x, k x ≫= h).
Proof.
  unfold mbind, M_bind, bind. destruct m as [log [e|x]]; [done|].
  destruct (k x) as [log' [e|y]]; [done|].
  destruct (h y) as [log'' r]. by rewrite (assoc_L (++)).
Qed.

Lemma bind_call {Y} (dydt : A → A → res A) (y t : A) (k : A → M A Y) :
  (call dydt y t ≫= k) =
  match dydt y t with
  | inl e => ([(y, t)], inl e)
  | inr d => ((y, t) :: calls (k d), result (k d))
  end.
Proof.
  unfold mbind, M_bind, bind, call, calls, result.
  destruct (dydt y t) as [e|d]; [done|]. by destruct (k d).
Qed.

Lemma bind_ret_r {X Y} (m : M A X) (f : X → Y) :
  (m ≫= λ x, ret (f x)) =
  (calls m, match result m with inl e => inl e | inr x => inr (f x) end).
Proof.
  destruct m as [log [e|x]]; [done|].
  unfold mbind, M_bind, bind, ret, calls, result; simpl. by rewrite app_nil_r.
Qed.
End MonadLemmas.

(** ** The loop, for any arithmetic *)

Section LoopLemmas.
Context {A : Type} `{PyFloat A}.

Lemma getitem_Some (arr : list A) i v : arr !! i = Some v → getitem arr i = inr v.
Proof. unfold getitem. by intros ->. Qed.

Lemma setitem_lt (arr : list A) i v :
  i < length arr → setitem arr i v = inr (<[i:=v]> arr).
Proof. unfold setitem. intros. by rewrite decide_True. Qed.

(** One turn of the loop on an array whose first [length pre + 1] cells are
    filled: it calls the derivative once and fills the next cell. *)
Lemma euler_body_step dydt Dt ts (pre : list A) y t z rest :
  ts !! length pre = Some t →
  euler_body dydt Dt ts (length pre) (pre ++ y :: z :: rest) =
  match dydt y t with
  | inl e => ([(y, t)], inl e)
  | inr d => ([(y, t)], inr ((pre ++ [y]) ++ fadd y (fmul d Dt) :: rest))
  end.
Proof.
  intros Ht. unfold euler_body.
  rewrite (getitem_Some (pre ++ _) _ y) by (by apply list_lookup_middle).
  rewrite bind_lift_inr, (getitem_Some ts _ t Ht), bind_lift_inr, bind_call.
  destruct (dydt y t) as [e|d]; [done|].
  rewrite setitem_lt by (rewrite length_app; simpl; lia).
  unfold lift, calls, result; simpl. do 2 f_equal.
  rewrite <- (assoc_L (++)). simpl. by rewrite insert_app_r.
Qed.

(** The whole loop: started on an array whose cells up to [i] are filled and
    followed by [k] free cells, [k] turns fill them with the states that
    [euler_from] computes along the time points [i, ..., i + k - 1]. *)
Lemma for_each_euler dydt Dt ts k : ∀ (pre : list A) y,
  length pre + k ≤ length ts →
  for_each (seq (length pre) k) (euler_body dydt Dt ts)
      (pre ++ y :: replicate k fzero) =
  (euler_from dydt Dt (take k (drop (length pre) ts)) y ≫= λ ys,
     ret (pre ++ y :: ys)).
Proof.
  induction k as [|k IH]; intros pre y Hlen.
  - reflexivity.
  - destruct (lookup_lt_is_Some_2 ts (length pre)) as [t Ht]; [lia|].
    rewrite (drop_S _ _ _ Ht). simpl.
    rewrite (euler_body_step _ _ _ _ _ t) by done.
    destruct (dydt y t) as [e|d]; [done|].
    specialize (IH (pre ++ [y]) (fadd y (fmul d Dt))).
    rewrite length_app, Nat.add_1_r in IH.
    unfold mbind at 1, M_bind at 1, bind at 1. rewrite IH by lia.
    destruct (euler_from dydt Dt (take k (drop (S (length pre)) ts))
                (fadd y (fmul d Dt))) as [log [e|ys]]; [done|].
    unfold mbind, M_bind, bind, ret; simpl.
    by rewrite !app_nil_r, <- (assoc_L (++)).
Qed.

Lemma length_arange n : length (arange (A:=A) n) = n.
Proof. unfold arange. by rewrite length_fmap, length_seq. Qed.

Lemma linspace_length start stop num (ts : list A) :
  linspace start stop num = inr ts → length ts = Z.to_nat num.
Proof.
  unfold linspace. destruct (num <? 0)%Z; [done|]. intros [= <-].
  assert (Hl : ∀ l : list A,
    length (if (1 <? num)%Z then <[pred (Z.to_nat num):=stop]> l else l)
    = length l).
  { intros l. destruct (1 <? num)%Z; [apply length_insert|done]. }
  rewrite Hl, length_fmap.
  destruct (0 <? num - 1)%Z; [destruct (is_zero _)|];
    by rewrite length_fmap, length_arange.
Qed.

(** The run of the solver once the number of steps is known and is not
    negative: the time grid comes from [linspace], the states from the loop. *)
Lemma solve_ode_euler_run dydt y0 Dt t_end q n (ts : list A) :
  py_div t_end Dt = inr q → to_int q = inr n → (0 ≤ n)%Z →
  linspace fzero t_end (n + 1) = inr ts →
  solve_ode_euler dydt y0 Dt t_end =
  (euler_from dydt Dt (take (Z.to_nat n) ts) y0 ≫= λ ys, ret (ts, y0 :: ys)).
Proof.
  intros Hq Hn Hpos Hts. unfold solve_ode_euler.
  rewrite Hq, bind_lift_inr, Hn, bind_lift_inr, Hts, bind_lift_inr.
  apply linspace_length in Hts.
  unfold zeros. replace (n + 1 <? 0)%Z with false by lia.
  rewrite bind_lift_inr.
  replace (Z.to_nat (n + 1)) with (S (Z.to_nat n)) in * by lia.
  rewrite setitem_lt by (simpl; lia). rewrite bind_lift_inr. simpl.
  unfold range.
  pose proof (for_each_euler dydt Dt ts (Z.to_nat n) [] y0) as Hloop.
  rewrite drop_0 in Hloop.
  simpl in Hloop. rewrite Hloop by lia. rewrite bind_assoc.
  destruct (euler_from dydt Dt (take (Z.to_nat n) ts) y0) as [log [e|ys]];
    [done|].
  reflexivity.
Qed.

(** *** What [euler_from] computes *)

Lemma euler_from_length dydt Dt (ts : list A) : ∀ y ys,
  result (euler_from dydt Dt ts y) = inr ys → length ys = length ts.
Proof.
  induction ts as [|t ts IH]; intros y ys; cbn [euler_from].
  - by intros [= <-].
  - rewrite bind_call. destruct (dydt y t) as [e|d]; [done|].
    rewrite bind_ret_r; unfold result; simpl.
    destruct (euler_from dydt Dt ts _) as [log [e|ys']] eqn:E; [done|].
    intros [= <-]. simpl. f_equal. apply (IH (fadd y (fmul d Dt))).
    by rewrite E.
Qed.

(** A derivative function that raises nowhere lets the loop run to its end. *)
Lemma euler_from_total dydt Dt (ts : list A) : ∀ y,
  (∀ y t, ∃ d, dydt y t = inr d) →
  ∃ ys, result (euler_from dydt Dt ts y) = inr ys.
Proof.
  induction ts as [|t ts IH]; intros y Hd; cbn [euler_from].
  - by eexists.
  - rewrite bind_call. destruct (Hd y t) as [d ->].
    rewrite bind_ret_r; unfold result; simpl.
    destruct (IH (fadd y (fmul d Dt)) Hd) as [ys Hys].
    unfold result in Hys. destruct (euler_from dydt Dt ts _) as [log r].
    simpl in *. subst r. by eexists.
Qed.

(** An exception of the derivative function ends the loop and is its
    outcome. *)
Lemma euler_from_raises dydt Dt (ts : list A) : ∀ y0 y t e,
  (y, t) ∈ calls (euler_from dydt Dt ts y0) → dydt y t = inl e →
  result (euler_from dydt Dt ts y0) = inl e.
Proof.
  induction ts as [|t' ts IH]; intros y0 y t e; cbn [euler_from].
  - by intros ?%elem_of_nil.
  - rewrite bind_call. destruct (dydt y0 t') as [e'|d] eqn:E.
    + unfold calls, result; simpl.
      intros [= -> ->]%list_elem_of_singleton. congruence.
    + rewrite bind_ret_r. unfold calls, result; simpl.
      intros [[= -> ->]|Hin]%elem_of_cons He; [congruence|].
      specialize (IH _ _ _ _ Hin He). unfold result in IH.
      by rewrite IH.
Qed.

(** *** The solver, whatever the arguments *)

(** Either the solver raises before the loop, having called nothing, or it
    runs the loop along the first [k] points of a time grid [ts]. *)
Lemma solve_ode_euler_shape dydt (y0 Dt t_end : A) :
  (∃ e, solve_ode_euler dydt y0 Dt t_end = ([], inl e)) ∨
  (∃ ts k, solve_ode_euler dydt y0 Dt t_end =
     (euler_from dydt Dt (take k ts) y0 ≫= λ ys, ret (ts, y0 :: ys))).
Proof.
  destruct (py_div t_end Dt) as [e|q] eqn:Hq.
  { left. exists e. unfold solve_ode_euler. by rewrite Hq. }
  destruct (to_int q) as [e|n] eqn:Hn.
  { left. exists e. unfold solve_ode_euler.
    by rewrite Hq, bind_lift_inr, Hn. }
  destruct (linspace fzero t_end (n + 1)) as [e|ts] eqn:Hts.
  { left. exists e. unfold solve_ode_euler.
    by rewrite Hq, bind_lift_inr, Hn, bind_lift_inr, Hts. }
  destruct (decide (0 ≤ n)%Z) as [Hpos|Hneg].
  { right. exists ts, (Z.to_nat n). by eapply solve_ode_euler_run. }
  left. exists IndexError. unfold solve_ode_euler.
  rewrite Hq, bind_lift_inr, Hn, bind_lift_inr, Hts, bind_lift_inr.
  assert (n + 1 = 0)%Z as Hn1.
  { unfold linspace in Hts. destruct (n + 1 <? 0)%Z eqn:E; [done|lia]. }
  rewrite Hn1. reflexivity.
Qed.

(** C6.  An exception that the derivative function raises during a run is
    the outcome of the run, as it was raised: if the solver called the
    derivative function at [(y, t)] and that call raised [e], the solver
    ends with [e] and returns no trajectory. *)
Theorem solve_ode_euler_propagates dydt (y0 Dt t_end y t : A) e :
  (y, t) ∈ calls (solve_ode_euler dydt y0 Dt t_end) →
  dydt y t = inl e →
  result (solve_ode_euler dydt y0 Dt t_end) = inl e ∧
  ∀ ts ys, result (solve_ode_euler dydt y0 Dt t_end) ≠ inr (ts, ys).
Proof.
  intros Hin He.
  assert (Hres : result (solve_ode_euler dydt y0 Dt t_end) = inl e).
  { destruct (solve_ode_euler_shape dydt y0 Dt t_end)
      as [[e' Hs]|(ts & k & Hs)]; rewrite Hs in Hin |- *.
    - by apply elem_of_nil in Hin.
    - rewrite bind_ret_r in Hin |- *. unfold calls at 1 in Hin.
      unfold result at 1. simpl in *.
      by rewrite (euler_from_raises _ _ _ _ _ _ _ Hin He). }
  split; [done|]. intros ts ys. by rewrite Hres.
Qed.
End LoopLemmas.

(** ** Binary64 numbers *)

Section Binary64Numbers.
Local Open Scope float_scope.

(** Rounding keeps the sign it is given. *)
Lemma binary_round_aux_sign (s : bool) (m e : Z) (l : location) :
  binary_round_aux prec emax s m e l = S754_zero s ∨
  binary_round_aux prec emax s m e l = S754_infinity s ∨
  binary_round_aux prec emax s m e l = S754_nan ∨
  ∃ m' e', binary_round_aux prec emax s m e l = S754_finite s m' e'.
Proof.
  unfold binary_round_aux.
  destruct (shr_fexp prec emax m e l) as [mrs' e'].
  destruct (shr_fexp prec emax _ e' loc_Exact) as [mrs'' e''].
  destruct (shr_m mrs'') as [|p|p]; [by left| |by right; right; left].
  destruct (e'' <=? emax - prec)%Z; [|by right; left].
  right; right; right. by eexists _, _.
Qed.

(** [int] of a binary64 number that is not negative is the floor of its
    exact value. *)
Lemma SF_trunc_floor (m : positive) (e : Z) :
  ∃ q, SF2Q (S754_finite false m e) = Some q ∧
    SF_trunc (S754_finite false m e) = inr (Qfloor q).
Proof.
  eexists. split; [reflexivity|]. cbn [SF_trunc]. f_equal.
  destruct e as [|p|p].
  - rewrite (Qfloor_comp _ (inject_Z (Z.pos m))); [by rewrite Qfloor_Z|].
    cbn [Qpower]. apply Qmult_1_r.
  - rewrite (Qfloor_comp _ (inject_Z (Z.pos m * 2 ^ Z.pos p)));
      [by rewrite Qfloor_Z|].
    rewrite inject_Z_mult. apply Qmult_comp; [reflexivity|].
    symmetry. by apply (Zpower_Qpower 2 (Z.pos p)).
  - rewrite Zdiv_Qdiv. apply Qfloor_comp.
    unfold Qdiv. apply Qmult_comp; [reflexivity|]. cbn [Qpower].
    apply Qinv_comp. change (Qpower_positive 2 p) with (inject_Z 2 ^ Z.pos p)%Q.
    by apply Zpower_Qpower.
Qed.

(** The quotient of a number that is not negative by a positive one: when
    [int] accepts it, [int] returns the floor of its exact value. *)
Lemma SFdiv_trunc_floor (x y : spec_float) (n : Z) :
  SFleb (S754_zero false) x = true → SFltb (S754_zero false) y = true →
  SF_trunc (SF64div x y) = inr n →
  ∃ q, SF2Q (SF64div x y) = Some q ∧ n = Qfloor q.
Proof.
  intros Hx Hy. unfold SF64div.
  destruct x as [sx|sx| |sx mx ex], y as [sy|sy| |sy my ey];
    try done; cbn [SFdiv]; try (destruct sx, sy; done).
  - destruct sy; [done|]. intros [= <-]. by exists 0%Q.
  - destruct sy; [done|]. intros [= <-]. by exists 0%Q.
  - destruct sx; [done|]. intros [= <-]. by exists 0%Q.
  - destruct sx; [done|]. destruct sy; [done|]. cbn [xorb].
    destruct (SFdiv_core_binary prec emax (Z.pos mx) ex (Z.pos my) ey)
      as [[mz ez] lz].
    destruct (binary_round_aux_sign false mz ez lz)
      as [->|[->|[->|(m' & e' & ->)]]]; try done.
    + intros [= <-]. by exists 0%Q.
    + destruct (SF_trunc_floor m' e') as (q & Hq & Ht). rewrite Ht.
      intros [= <-]. by exists q.
Qed.

Lemma float_quotient_floor (Dt t_end : float) (n : Z) :
  (0 <? Dt) = true → (0 <=? t_end) = true →
  to_int (fdiv t_end Dt) = inr n →
  ∃ q, float_to_Q (t_end / Dt) = Some q ∧ n = Qfloor q.
Proof.
  rewrite FloatAxioms.ltb_spec, FloatAxioms.leb_spec. cbn [to_int fdiv float_PyFloat].
  unfold float_to_Q. rewrite FloatAxioms.div_spec.
  change (Prim2SF 0) with (S754_zero false).
  intros HDt H0. by apply SFdiv_trunc_floor.
Qed.



End Binary64Numbers.

(** ** The solver, whatever the arguments and the arithmetic *)

Section Steps.
Context {A : Type} `{PyFloat A}.

(** A returned trajectory: the step is not zero, [int(t_end / Dt)] returned a
    number of steps [n >= 0], the time values are those of
    [np.linspace(0, t_end, n + 1)] and the states are [y0] and the [n] states
    of the loop. *)
Lemma solve_ode_euler_inr_steps dydt (y0 Dt t_end : A) ts ys :
  result (solve_ode_euler dydt y0 Dt t_end) = inr (ts, ys) →
  ∃ n ys', is_zero Dt = false ∧ to_int (fdiv t_end Dt) = inr n ∧ (0 ≤ n)%Z ∧
    linspace fzero t_end (n + 1) = inr ts ∧
    ys = y0 :: ys' ∧ length ys' = Z.to_nat n ∧
    result (euler_from dydt Dt (take (Z.to_nat n) ts) y0) = inr ys'.
Proof.
  unfold solve_ode_euler at 1, py_div.
  destruct (is_zero Dt) eqn:Hz; [done|]. rewrite bind_lift_inr.
  destruct (to_int (fdiv t_end Dt)) as [e|n] eqn:Hn; [done|].
  rewrite bind_lift_inr.
  destruct (linspace fzero t_end (n + 1)) as [e|ts0] eqn:Hts; [done|].
  rewrite bind_lift_inr.
  destruct (decide (0 ≤ n)%Z) as [Hpos|Hneg].
  - intros Hres. exists n.
    assert (Hq : py_div t_end Dt = inr (fdiv t_end Dt))
      by (unfold py_div; by rewrite Hz).
    pose proof (solve_ode_euler_run dydt y0 _ _ _ _ _ Hq Hn Hpos Hts) as Hrun.
    unfold solve_ode_euler at 1, py_div in Hrun.
    rewrite Hz, bind_lift_inr, Hn, bind_lift_inr, Hts, bind_lift_inr in Hrun.
    rewrite Hrun, bind_ret_r in Hres. unfold result at 1 in Hres.
    cbn [snd] in Hres.
    destruct (result (euler_from dydt Dt (take (Z.to_nat n) ts0) y0))
      as [e|ys'] eqn:E; [done|].
    injection Hres as <- <-. exists ys'.
    pose proof (euler_from_length _ _ _ _ _ E) as Hlen.
    apply linspace_length in Hts as Hl.
    rewrite length_take in Hlen.
    repeat split; try done. lia.
  - assert (n + 1 = 0)%Z as Hn1.
    { unfold linspace in Hts. destruct (n + 1 <? 0)%Z eqn:E; [done|lia]. }
    by rewrite Hn1.
Qed.
End Steps.

(** *** Arguments that the specification calls invalid *)

Section Arguments.
Context {A : Type} `{PyFloat A}.

(** With a number as initial state the general form is the solver. *)
Lemma solve_ode_euler_initial_scalar dydt (y0 Dt t_end : A) :
  solve_ode_euler_initial dydt (Scalar y0) Dt t_end
  = solve_ode_euler dydt y0 Dt t_end.
Proof. reflexivity. Qed.











End Arguments.

Section ArgumentsBinary64.
Local Open Scope float_scope.


End ArgumentsBinary64.

(** *** The number of samples *)

Section Binary64Length.
Local Open Scope float_scope.

(** C3, as the code has it.  In binary64, for a step [Dt > 0] and a horizon
    [t_end >= 0], a trajectory that the solver returns has exactly
    [floor q + 1] time values and as many states, where [q] is the quotient
    [t_end / Dt] as the code computes it: the binary64 number nearest to the
    exact quotient, and not the exact quotient. *)
Theorem solve_ode_euler_length dydt (y0 Dt t_end : float) ts ys :
  (0 <? Dt) = true → (0 <=? t_end) = true →
  result (solve_ode_euler dydt y0 Dt t_end) = inr (ts, ys) →
  ∃ q : Q, float_to_Q (t_end / Dt) = Some q ∧
    length ts = (Z.to_nat (Qfloor q) + 1)%nat ∧
    length ys = (Z.to_nat (Qfloor q) + 1)%nat ∧
    length (zip ts ys) = (Z.to_nat (Qfloor q) + 1)%nat.
Proof.
  intros HDt H0 Hres.
  apply solve_ode_euler_inr_steps in Hres
    as (n & ys' & _ & Hn & Hpos & Hts & -> & Hlen & _).
  destruct (float_quotient_floor Dt t_end n HDt H0 Hn) as (q & Hq & ->).
  exists q. split; [done|]. apply linspace_length in Hts.
  rewrite length_zip, Hts. cbn [length]. rewrite Hlen. lia.
Qed.

Lemma solve_ode_euler_length_witness :
  ∃ ts ys q,
    result (solve_ode_euler (λ y t, inr (exp_decay_dt y t 1)) 10 0.1 10)
      = inr (ts, ys) ∧
    float_to_Q (10 / 0.1) = Some q ∧ (q == 100)%Q ∧
    length ts = 101%nat ∧ length ys = 101%nat.
Proof.
  pose (run := result (solve_ode_euler (λ y t, inr (exp_decay_dt y t 1))
                         10 0.1 10)).
  assert (Hres : ∃ ts ys, run = inr (ts, ys)).
  { vm_compute. by eexists _, _. }
  destruct Hres as (ts & ys & Hres). unfold run in Hres.
  destruct (solve_ode_euler_length _ 10 0.1 10 ts ys eq_refl eq_refl Hres)
    as (q & Hq & Hts & Hys & _).
  exists ts, ys, q. split; [exact Hres|]. split; [exact Hq|].
  vm_compute in Hq. injection Hq as <-.
  split; [reflexivity|]. split; [rewrite Hts|rewrite Hys]; reflexivity.
Defined.

(** C3 with the exact quotient fails.  With the default arguments 0.1 and 10
    the solver returns 101 samples: the computed quotient is 100, while the
    exact quotient of the two binary64 numbers is below 100 and has the floor
    99.  With 0.1 and 0.7 it returns 7 samples: the computed quotient is
    below 7, while the quotient of the decimal numbers 7/10 and 1/10 is 7. *)
Lemma solve_ode_euler_length_not_exact_quotient :
  (∃ ts ys a b,
     result (solve_ode_euler (λ y t, inr (exp_decay_dt y t 1)) 10 0.1 10)
       = inr (ts, ys) ∧
     length ts = 101%nat ∧
     float_to_Q 0.1 = Some a ∧ float_to_Q 10 = Some b ∧
     (Z.to_nat (Qfloor (b / a)) + 1 = 100)%nat) ∧
  (∃ ts ys,
     result (solve_ode_euler (λ y t, inr (exp_decay_dt y t 1)) 10 0.1 0.7)
       = inr (ts, ys) ∧
     length ts = 7%nat ∧
     (Z.to_nat (Qfloor ((7 # 10) / (1 # 10))) + 1 = 8)%nat).
Proof.
  split.
  - do 4 eexists.
    repeat match goal with |- _ ∧ _ => split end; vm_compute; reflexivity.
  - do 2 eexists.
    repeat match goal with |- _ ∧ _ => split end; vm_compute; reflexivity.
Qed.
End Binary64Length.

(** *** A derivative that is zero everywhere *)

Section Constant.
Context {A : Type} `{PyFloat A}.

End Constant.

Section Binary64Constant.
Local Open Scope float_scope.


End Binary64Constant.

(** *** The time values *)

Section TimeGrid.
Context {A : Type} `{PyFloat A}.

(** [np.linspace(start, stop, n + 1)] for [n >= 1]: every item is computed
    from its index and the step [(stop - start) / n], and then the last one
    is overwritten with [stop]. *)
Lemma linspace_steps (start stop : A) (n : Z) :
  (1 ≤ n)%Z →
  linspace start stop (n + 1) =
  inr (<[Z.to_nat n := stop]>
         ((λ i : nat,
             fadd
               (if is_zero (fdiv (fsub stop start) (of_int n))
                then fmul (fdiv (of_int (Z.of_nat i)) (of_int n))
                       (fsub stop start)
                else fmul (of_int (Z.of_nat i))
                       (fdiv (fsub stop start) (of_int n)))
               start) <$> seq 0 (S (Z.to_nat n)))).
Proof.
  intros Hn. unfold linspace, arange.
  replace (n + 1 <? 0)%Z with false by lia.
  replace (n + 1 - 1)%Z with n by lia.
  replace (0 <? n)%Z with true by lia.
  replace (1 <? n + 1)%Z with true by lia.
  replace (pred (Z.to_nat (n + 1))) with (Z.to_nat n) by lia.
  replace (Z.to_nat (n + 1)) with (S (Z.to_nat n)) by lia.
  cbv zeta. do 2 f_equal.
  destruct (is_zero _); by rewrite <- !list_fmap_compose.
Qed.

Lemma linspace_items (start stop : A) (n : Z) ts :
  (1 ≤ n)%Z → linspace start stop (n + 1) = inr ts →
  ts !! Z.to_nat n = Some stop ∧
  ∀ i, i < Z.to_nat n →
    ts !! i =
    Some (fadd
            (if is_zero (fdiv (fsub stop start) (of_int n))
             then fmul (fdiv (of_int (Z.of_nat i)) (of_int n))
                    (fsub stop start)
             else fmul (of_int (Z.of_nat i))
                    (fdiv (fsub stop start) (of_int n)))
            start).
Proof.
  intros Hn. rewrite linspace_steps by done.
  intros Hts. apply (inj inr) in Hts. subst ts. split.
  - apply list_lookup_insert_eq. rewrite length_fmap, length_seq. lia.
  - intros i Hi. rewrite list_lookup_insert_ne by lia.
    by rewrite list_lookup_fmap, lookup_seq_lt by lia.
Qed.

(** C9, as the code has it.  In any arithmetic, a returned trajectory of at
    least two samples has [n + 1] time values, [n = int(t_end / Dt) >= 1];
    the last one is [t_end] itself, and the one at an index [i < n] is
    computed from [i] and the step [(t_end - 0) / n] of [np.linspace], the
    horizon divided by the number of steps: the step [Dt] enters the time
    values through [n] only, so that two runs to the same horizon that return
    as many samples return the same time values. *)
Theorem solve_ode_euler_time_grid dydt (y0 Dt t_end : A) ts ys :
  result (solve_ode_euler dydt y0 Dt t_end) = inr (ts, ys) →
  2 ≤ length ts →
  ∃ n, to_int (fdiv t_end Dt) = inr n ∧ (1 ≤ n)%Z ∧
    length ts = Z.to_nat n + 1 ∧
    last ts = Some t_end ∧
    (∀ i, i < Z.to_nat n →
       ts !! i =
       Some (fadd
               (if is_zero (fdiv (fsub t_end fzero) (of_int n))
                then fmul (fdiv (of_int (Z.of_nat i)) (of_int n))
                       (fsub t_end fzero)
                else fmul (of_int (Z.of_nat i))
                       (fdiv (fsub t_end fzero) (of_int n)))
               fzero)) ∧
    (∀ dydt' y0' Dt' ts' ys',
       result (solve_ode_euler dydt' y0' Dt' t_end) = inr (ts', ys') →
       length ts' = length ts → ts' = ts).
Proof.
  intros Hres Hlen.
  apply solve_ode_euler_inr_steps in Hres
    as (n & ys0 & _ & Hn & Hpos & Hts & _).
  pose proof (linspace_length _ _ _ _ Hts) as Hl.
  assert (H1 : (1 ≤ n)%Z) by lia.
  destruct (linspace_items _ _ _ _ H1 Hts) as [Hlast Hitems].
  exists n. split; [done|]. split; [done|]. split; [lia|].
  split; [|split; [done|]].
  - rewrite last_lookup. by replace (pred (length ts)) with (Z.to_nat n) by lia.
  - intros dydt' y0' Dt' ts' ys' Hres' Hlen'.
    apply solve_ode_euler_inr_steps in Hres'
      as (n' & ys0' & _ & _ & Hpos' & Hts' & _).
    pose proof (linspace_length _ _ _ _ Hts') as Hl'.
    assert (n' = n) as -> by lia. congruence.
Qed.
End TimeGrid.

Section TimeGridBinary64.
Local Open Scope float_scope.

Lemma solve_ode_euler_time_grid_witness :
  ∃ ts ys,
    result (solve_ode_euler (λ y t, inr (exp_decay_dt y t 1)) 10 0.3 10)
      = inr (ts, ys) ∧
    length ts = 34%nat ∧ last ts = Some 10 ∧
    ts !! 1%nat = Some (1 * (10 / 33) + 0).
Proof.
  pose (run := result (solve_ode_euler (λ y t, inr (exp_decay_dt y t 1))
                         10 0.3 10)).
  assert (Hres : ∃ ts ys, run = inr (ts, ys) ∧ length ts = 34%nat).
  { vm_compute. by eexists _, _. }
  destruct Hres as (ts & ys & Hres & Hlen). unfold run in Hres.
  destruct (solve_ode_euler_time_grid _ 10 0.3 10 ts ys Hres)
    as (n & Hn & _ & Hl & Hlast & Hitems & _); [rewrite Hlen; lia|].
  exists ts, ys. split; [exact Hres|]. split; [exact Hlen|].
  split; [exact Hlast|].
  vm_compute in Hn. injection Hn as <-.
  exact (Hitems 1%nat ltac:(vm_compute; lia)).
Defined.

(** C9, as it is stated, fails in binary64.  With the default arguments the
    time values are not a fixed distance apart: the second follows the first
    by 0.1, the fifth follows the fourth by less, in floating point and
    exactly.  And the step of the grid, [10 / 100], is [Dt] although 10 is
    not an integer multiple of the binary64 number 0.1. *)
Lemma solve_ode_euler_time_grid_uneven :
  ∃ ts ys t0 t1 t3 t4 q0 q1 q3 q4 qDt,
    result (solve_ode_euler (λ y t, inr (exp_decay_dt y t 1)) 10 0.1 10)
      = inr (ts, ys) ∧
    ts !! 0%nat = Some t0 ∧ ts !! 1%nat = Some t1 ∧
    ts !! 3%nat = Some t3 ∧ ts !! 4%nat = Some t4 ∧
    t1 - t0 = 0.1 ∧ t4 - t3 = 0.09999999999999998 ∧
    float_to_Q t0 = Some q0 ∧ float_to_Q t1 = Some q1 ∧
    float_to_Q t3 = Some q3 ∧ float_to_Q t4 = Some q4 ∧
    (q4 - q3 < q1 - q0)%Q ∧
    10 / 100 = 0.1 ∧ float_to_Q 0.1 = Some qDt ∧
    ∀ k : Z, ¬ (inject_Z k * qDt == 10)%Q.
Proof.
  do 11 eexists.
  repeat match goal with |- _ ∧ _ => split end;
    try (vm_compute; reflexivity).
  intros k. unfold Qeq. cbn. lia.
Qed.
End TimeGridBinary64.

(** ** Arithmetic without rounding *)

Section Exact.
Local Open Scope Qc_scope.

Lemma py_div_nonzero (a b : Qc) : b ≠ 0 → py_div a b = inr (a / b).
Proof. intros Hb. unfold py_div; simpl. by rewrite bool_decide_false. Qed.

(** [int(q)] rounds toward zero: down for [q >= 0], up for [q <= 0]. *)
Lemma Qc_trunc_nonneg (q : Qc) :
  0 ≤ q →
  (0 ≤ Qc_trunc q)%Z ∧ Qc_trunc q = Qfloor q ∧
  Qc_of_Z (Qc_trunc q) ≤ q ∧ q < Qc_of_Z (Qc_trunc q + 1).
Proof.
  intros Hq.
  assert (Hn : (0 ≤ Qnum q)%Z).
  { unfold Qcle, Qle in Hq. simpl in Hq. lia. }
  assert (Hf : Qc_trunc q = Qfloor q).
  { unfold Qc_trunc, Qfloor. destruct (this q) as [n d]. simpl in *.
    apply Z.quot_div_nonneg; lia. }
  split; [|split; [done|split]].
  - unfold Qc_trunc. apply Z.quot_pos; lia.
  - rewrite Hf. apply Qfloor_le.
  - rewrite Hf. apply Qlt_floor.
Qed.

Lemma Qc_trunc_nonpos (q : Qc) :
  q ≤ 0 →
  (Qc_trunc q ≤ 0)%Z ∧
  Qc_of_Z (Qc_trunc q - 1) < q ∧ q ≤ Qc_of_Z (Qc_trunc q).
Proof.
  intros Hq.
  assert (Hn : (Qnum q ≤ 0)%Z).
  { unfold Qcle, Qle in Hq. simpl in Hq. lia. }
  assert (Hf : Qc_trunc q = Qceiling q).
  { unfold Qc_trunc, Qceiling, Qfloor, Qopp. destruct (this q) as [n d].
    simpl in *. rewrite <- (Z.opp_involutive n) at 1.
    rewrite Z.quot_opp_l by lia. f_equal. apply Z.quot_div_nonneg; lia. }
  split; [|split].
  - unfold Qc_trunc. rewrite <- (Z.opp_involutive (Qnum q)).
    rewrite Z.quot_opp_l by lia.
    pose proof (Z.quot_pos (- Qnum q) (Z.pos (Qden q))). lia.
  - rewrite Hf. apply Qceiling_lt.
  - rewrite Hf. apply Qle_ceiling.
Qed.

Lemma Qc_of_Z_m1 : Qc_of_Z (-1) = -1.
Proof. by apply Qc_is_canon. Qed.

Lemma Qc_trunc_small (q : Qc) : -1 < q → q < 1 → Qc_trunc q = 0%Z.
Proof.
  intros Hlo Hhi. destruct (total (≤) 0 q) as [Hq|Hq].
  - destruct (Qc_trunc_nonneg q Hq) as (H0 & _ & Hle & _).
    assert (Qc_of_Z (Qc_trunc q) < Qc_of_Z 1).
    { rewrite Z2Qc_inj_1. by eapply Qcle_lt_trans. }
    apply Z2Qc_inj_lt in H. lia.
  - destruct (Qc_trunc_nonpos q Hq) as (H0 & _ & Hle).
    assert (Qc_of_Z (-1) < Qc_of_Z (Qc_trunc q)).
    { rewrite Qc_of_Z_m1. by eapply Qclt_le_trans. }
    apply Z2Qc_inj_lt in H. lia.
Qed.

(** The quotient [t_end / Dt] for a positive step. *)
Lemma Qcdiv_nonneg (a b : Qc) : 0 ≤ a → 0 < b → 0 ≤ a / b.
Proof.
  intros Ha Hb. apply Qcmult_nonneg_nonneg; [done|].
  apply Qclt_le_weak. by apply Qcinv_pos.
Qed.

Lemma Qcdiv_lt_1 (a b : Qc) : 0 < b → a < b → a / b < 1.
Proof.
  intros Hb Hab. apply (Qcmult_lt_mono_pos_r _ _ b Hb).
  unfold Qcdiv. rewrite <- Qcmult_assoc, (Qcmult_comm (/ b)), Qcmult_inv_r.
  - by rewrite Qcmult_1_r, Qcmult_1_l.
  - intros ->. by apply (irreflexivity Qclt 0).
Qed.

Lemma Qc_pos_nonzero (b : Qc) : 0 < b → b ≠ 0.
Proof. intros Hb ->. by apply (irreflexivity Qclt 0). Qed.

(** *** The time grid *)

Lemma length_grid t_end n : length (grid t_end n) = (Z.to_nat n + 1)%nat.
Proof. unfold grid. by rewrite length_fmap, length_seq. Qed.

Lemma grid_lookup t_end n i :
  (i ≤ Z.to_nat n)%nat →
  grid t_end n !! i = Some (Qc_of_Z (Z.of_nat i) * (t_end / Qc_of_Z n)).
Proof.
  intros Hi. unfold grid. rewrite list_lookup_fmap, lookup_seq_lt by lia.
  done.
Qed.

Lemma grid_lookup_inv t_end n i t :
  grid t_end n !! i = Some t →
  (i ≤ Z.to_nat n)%nat ∧ t = Qc_of_Z (Z.of_nat i) * (t_end / Qc_of_Z n).
Proof.
  intros Hi. pose proof (lookup_lt_Some _ _ _ Hi) as Hlt.
  rewrite length_grid in Hlt. rewrite grid_lookup in Hi by lia.
  split; [lia|congruence].
Qed.

Lemma grid_first t_end n : grid t_end n !! 0%nat = Some 0.
Proof.
  rewrite grid_lookup by lia. change (Z.of_nat 0) with 0%Z. rewrite Z2Qc_inj_0. f_equal. ring.
Qed.

Lemma grid_last t_end n :
  (1 ≤ n)%Z → grid t_end n !! Z.to_nat n = Some t_end.
Proof.
  intros Hn. rewrite grid_lookup by lia. rewrite Z2Nat.id by lia.
  f_equal. field. intros Hz. rewrite <- Z2Qc_inj_0 in Hz.
  apply Z2Qc_inj in Hz. lia.
Qed.

Lemma grid_zero t_end : grid t_end 0 = [0].
Proof.
  unfold grid. simpl. change (Z.of_nat 0) with 0%Z.
  rewrite Z2Qc_inj_0. f_equal. ring.
Qed.

(** [np.linspace(0, t_end, n + 1)] is the grid. *)
Lemma linspace_exact t_end n :
  (0 ≤ n)%Z → linspace 0 t_end (n + 1) = inr (grid t_end n).
Proof.
  intros Hn. unfold linspace.
  replace (n + 1 <? 0)%Z with false by lia. f_equal.
  replace (n + 1 - 1)%Z with n by lia.
  replace (Z.to_nat (n + 1)) with (Z.to_nat n + 1)%nat by lia.
  assert (Hy : (λ v, fadd v 0) <$>
     (if (0 <? n)%Z
      then if is_zero (fdiv (fsub t_end 0) (of_int n))
           then (λ v, fmul (fdiv v (of_int n)) (fsub t_end 0)) <$> arange (Z.to_nat n + 1)%nat
           else (λ v, fmul v (fdiv (fsub t_end 0) (of_int n))) <$> arange (Z.to_nat n + 1)%nat
      else (λ v, fmul v (fsub t_end 0)) <$> arange (Z.to_nat n + 1)%nat)
     = grid t_end n).
  { unfold arange, grid. simpl.
    destruct (0 <? n)%Z eqn:E0.
    - destruct (bool_decide _); rewrite <- !list_fmap_compose;
        apply list_fmap_ext; intros _ i _; simpl; field;
        intros Hz; rewrite <- Z2Qc_inj_0 in Hz; apply Z2Qc_inj in Hz; lia.
    - assert (n = 0%Z) as -> by lia. simpl. change (Z.of_nat 0) with 0%Z.
      rewrite !Z2Qc_inj_0. f_equal. ring. }
  simpl in Hy |- *. rewrite Hy.
  destruct (1 <? n + 1)%Z eqn:E1; [|done].
  apply list_insert_id.
  replace (pred (Z.to_nat n + 1)) with (Z.to_nat n) by lia.
  apply grid_last. lia.
Qed.

(** *** The run of the solver *)

(** With a step that is not zero and a quotient [t_end / Dt] whose integer
    part [n] is not negative, the solver returns the grid of [n + 1] time
    points and the states of the loop, or the exception that ended the
    loop. *)
Lemma solve_ode_euler_exact dydt (y0 Dt t_end : Qc) :
  Dt ≠ 0 → (0 ≤ Qc_trunc (t_end / Dt))%Z →
  solve_ode_euler dydt y0 Dt t_end =
  (euler_from dydt Dt
     (take (Z.to_nat (Qc_trunc (t_end / Dt)))
        (grid t_end (Qc_trunc (t_end / Dt)))) y0 ≫= λ ys,
   ret (grid t_end (Qc_trunc (t_end / Dt)), y0 :: ys)).
Proof.
  intros HDt Hn.
  apply (solve_ode_euler_run _ _ _ _ (t_end / Dt)); try done.
  - by apply py_div_nonzero.
  - by apply linspace_exact.
Qed.

Lemma solve_ode_euler_returned dydt (y0 Dt t_end : Qc) ts ys :
  Dt ≠ 0 → (0 ≤ Qc_trunc (t_end / Dt))%Z →
  result (solve_ode_euler dydt y0 Dt t_end) = inr (ts, ys) →
  ts = grid t_end (Qc_trunc (t_end / Dt)) ∧
  ∃ ys', ys = y0 :: ys' ∧
    result (euler_from dydt Dt
      (take (Z.to_nat (Qc_trunc (t_end / Dt))) ts) y0) = inr ys'.
Proof.
  intros HDt Hn. rewrite solve_ode_euler_exact, bind_ret_r by done.
  unfold result at 1; simpl.
  destruct (result (euler_from _ _ _ _)) as [e|ys'] eqn:E; [done|].
  intros [= <- <-]. split; [done|]. by exists ys'.
Qed.

Lemma solve_ode_euler_returns dydt (y0 Dt t_end : Qc) :
  Dt ≠ 0 → (0 ≤ Qc_trunc (t_end / Dt))%Z →
  (∀ y t, ∃ d, dydt y t = inr d) →
  ∃ ts ys, result (solve_ode_euler dydt y0 Dt t_end) = inr (ts, ys).
Proof.
  intros HDt Hn Hd. rewrite solve_ode_euler_exact, bind_ret_r by done.
  unfold result at 1; simpl.
  destruct (euler_from_total dydt Dt
    (take (Z.to_nat (Qc_trunc (t_end / Dt)))
       (grid t_end (Qc_trunc (t_end / Dt)))) y0 Hd) as [ys ->].
  by do 2 eexists.
Qed.

Lemma solve_ode_euler_no_step dydt (y0 Dt t_end : Qc) :
  Dt ≠ 0 → -1 < t_end / Dt → t_end / Dt < 1 →
  solve_ode_euler dydt y0 Dt t_end = ([], inr ([0], [y0])).
Proof.
  intros HDt Hlo Hhi. pose proof (Qc_trunc_small _ Hlo Hhi) as Hn.
  rewrite solve_ode_euler_exact by (done || lia).
  rewrite Hn. simpl. by rewrite grid_zero.
Qed.

(** C10.  With a step [Dt > 0] and a horizon [0 <= t_end < Dt], whatever the
    derivative function and the initial state [y0], the solver returns the
    single sample [(0, y0)] and calls the derivative function not once. *)
Theorem solve_ode_euler_short_horizon dydt (y0 Dt t_end : Qc) :
  0 < Dt → 0 ≤ t_end → t_end < Dt →
  solve_ode_euler dydt y0 Dt t_end = ([], inr ([0], [y0])) ∧
  calls (solve_ode_euler dydt y0 Dt t_end) = [].
Proof.
  intros HDt H0 Hlt.
  rewrite solve_ode_euler_no_step; [done|by apply Qc_pos_nonzero| |].
  - eapply Qclt_le_trans; [|by apply Qcdiv_nonneg]. done.
  - by apply Qcdiv_lt_1.
Qed.

Lemma solve_ode_euler_short_horizon_witness :
  solve_ode_euler (λ _ _, inl (Raised 0)) (frac 10 1) (frac 2 1) (frac 1 1)
  = ([], inr ([0], [frac 10 1])).
Proof. by apply (solve_ode_euler_short_horizon (λ _ _, inl (Raised 0))). Defined.

(** For a positive step and a horizon that is not negative the number of
    steps is [floor (t_end / Dt)]. *)
Lemma n_steps_floor (Dt t_end : Qc) :
  0 < Dt → 0 ≤ t_end →
  (0 ≤ Qc_trunc (t_end / Dt))%Z ∧ Qc_trunc (t_end / Dt) = Qfloor (t_end / Dt)%Qc.
Proof.
  intros HDt H0.
  destruct (Qc_trunc_nonneg (t_end / Dt)) as (? & ? & _); [|done].
  by apply Qcdiv_nonneg.
Qed.

Lemma Qc_trunc_of_Z k : Qc_trunc (Qc_of_Z k) = k.
Proof. unfold Qc_trunc. simpl. apply Z.quot_1_r. Qed.

Lemma Qc_of_Z_nonzero n : n ≠ 0%Z → Qc_of_Z n ≠ 0.
Proof. intros Hn Hz. rewrite <- Z2Qc_inj_0 in Hz. by apply Z2Qc_inj in Hz. Qed.

(** *** The slider value 0.3 *)

(** C1, at a value of the notebook's own slider.  [solve_and_plot(0.3)]
    returns 34 time values that start at 0, but the second one is [10/33]:
    consecutive time values are [10/33] apart, not the step [3/10] by which
    the loop advances the state. *)
Theorem solve_and_plot_spacing_is_not_step :
  ∃ ts ys, result (solve_and_plot (frac 3 10)) = inr (ts, ys) ∧
    length ts = 34%nat ∧
    ts !! 0%nat = Some 0 ∧ ts !! 1%nat = Some (frac 10 33) ∧
    frac 10 33 - 0 ≠ frac 3 10.
Proof.
  assert (Hn : Qc_trunc (Qc_of_Z 10 / frac 3 10) = 33%Z) by (by vm_compute).
  unfold solve_and_plot. cbn [of_int Qc_PyFloat].
  destruct (solve_ode_euler_returns
              (λ y t, inr (exp_decay_dt y t (Qc_of_Z 1)))
              (Qc_of_Z 10) (frac 3 10) (Qc_of_Z 10)) as (ts & ys & Hres);
    [done|by rewrite Hn|by eexists|].
  exists ts, ys. split; [done|].
  apply solve_ode_euler_returned in Hres as (-> & _); [|done|by rewrite Hn].
  rewrite Hn, length_grid, grid_first, grid_lookup by (simpl; lia).
  split; [done|]. split; [done|]. split; [|done].
  f_equal.
Qed.

(** *** The solver against the Euler method of the specification *)

Lemma steps_S Dt i m :
  steps Dt i (S m) = Qc_of_Z (Z.of_nat i) * Dt :: steps Dt (S i) m.
Proof. done. Qed.

(** Along time points that are [Dt] apart the loop is the method of the
    specification. *)
Lemma euler_from_reference dydt (Dt : Qc) m : ∀ i y,
  (euler_from dydt Dt (steps Dt i m) y ≫= λ ys,
     ret (zip (steps Dt (S i) m) ys))
  = euler_reference_from dydt Dt m (Qc_of_Z (Z.of_nat i) * Dt) y.
Proof.
  induction m as [|m IH]; intros i y.
  - done.
  - rewrite !steps_S. cbn [euler_from euler_reference_from].
    cbn [fadd fmul Qc_PyFloat].
    rewrite bind_assoc, !bind_call.
    destruct (dydt y (Qc_of_Z (Z.of_nat i) * Dt)) as [e|d]; [done|].
    replace (Qc_of_Z (Z.of_nat i) * Dt + Dt)
      with (Qc_of_Z (Z.of_nat (S i)) * Dt)
      by (rewrite Nat2Z.inj_succ, <- Z.add_1_r, Z2Qc_inj_add, Z2Qc_inj_1; ring).
    rewrite <- (IH (S i) (y + d * Dt)).
    rewrite !bind_assoc.
    destruct (euler_from dydt Dt (steps Dt (S i) m) (y + d * Dt))
      as [log [e|ys]]; [done|].
    unfold mbind, M_bind, bind, ret, calls, result; simpl.
    by rewrite !app_nil_r.
Qed.

Lemma grid_multiple (Dt : Qc) (k : nat) :
  Dt ≠ 0 → grid (Qc_of_Z (Z.of_nat k) * Dt) (Z.of_nat k) = steps Dt 0 (k + 1).
Proof.
  intros HDt. unfold grid, steps. rewrite Nat2Z.id. destruct k as [|k].
  - apply list_fmap_ext. intros i j [-> Hi]%lookup_seq.
    replace i with 0%nat by lia.
    change (Z.of_nat (0 + 0)) with 0%Z. rewrite Z2Qc_inj_0. ring.
  - apply list_fmap_ext. intros _ j _. f_equal. field.
    apply Qc_of_Z_nonzero. lia.
Qed.

(** When the horizon is [k] steps long, the trajectory of the solver is the
    trajectory of the method of the specification. *)
Lemma solve_ode_euler_refines_reference dydt (y0 Dt : Qc) (k : nat) :
  0 < Dt →
  trajectory (solve_ode_euler dydt y0 Dt (Qc_of_Z (Z.of_nat k) * Dt))
  = euler_reference dydt y0 Dt k.
Proof.
  intros HDt. pose proof (Qc_pos_nonzero _ HDt) as Hnz.
  assert (Hq : Qc_of_Z (Z.of_nat k) * Dt / Dt = Qc_of_Z (Z.of_nat k))
    by (field; done).
  unfold trajectory, euler_reference.
  rewrite solve_ode_euler_exact by (rewrite ?Hq, ?Qc_trunc_of_Z; done || lia).
  rewrite Hq, Qc_trunc_of_Z, Nat2Z.id, grid_multiple by done.
  unfold steps at 1 2.
  rewrite seq_app, fmap_app, take_app_length' by (by rewrite length_fmap, length_seq).
  rewrite <- (fmap_app _ (seq 0 k)), <- seq_app.
  fold (steps Dt 0 k). fold (steps Dt 0 (k + 1)).
  replace (k + 1)%nat with (S k) by lia. rewrite steps_S.
  change (Z.of_nat 0) with 0%Z. rewrite Z2Qc_inj_0.
  replace (0 * Dt) with (0 : Qc) by ring.
  pose proof (euler_from_reference dydt Dt k 0%nat y0) as Href.
  change (Z.of_nat 0) with 0%Z in Href. rewrite Z2Qc_inj_0 in Href.
  replace (0 * Dt) with (0 : Qc) in Href by ring.
  cbn [fzero Qc_PyFloat]. rewrite <- Href, !bind_assoc.
  destruct (euler_from dydt Dt (steps Dt 0 k) y0) as [log [e|ys]]; [done|].
  unfold mbind, M_bind, bind, ret, calls, result; simpl.
  by rewrite !app_nil_r.
Qed.

(** C4, at a value of the notebook's own slider.  The states of
    [solve_and_plot(0.3)] are those of the Euler method with step [3/10],
    but the times are not: the sample after [(0, 10)] is [(10/33, 7)] where
    the method of the specification, advancing time by the step, has
    [(3/10, 7)].  The derivative function is called with those times, so
    with a derivative that depends on the time the states differ too: for
    [dy/dt = t] from [y0 = 0] the third state is [1/11], not [9/100]. *)
Theorem solve_and_plot_is_not_euler_reference :
  samples (trajectory (solve_and_plot (frac 3 10))) !! 1%nat
    = Some (frac 10 33, frac 7 1) ∧
  samples (euler_reference (λ y t, inr (exp_decay_dt y t (frac 1 1)))
             (frac 10 1) (frac 3 10) 33) !! 1%nat
    = Some (frac 3 10, frac 7 1) ∧
  samples (trajectory (solve_ode_euler ramp_dt (frac 0 1) (frac 3 10)
                         (frac 10 1))) !! 2%nat
    = Some (frac 20 33, frac 1 11) ∧
  samples (euler_reference ramp_dt (frac 0 1) (frac 3 10) 33) !! 2%nat
    = Some (frac 3 5, frac 9 100).
Proof. repeat split; eval_sample. Qed.
End Exact.

(** ** The harness *)

Section Harness.
Local Open Scope Qc_scope.

Lemma Qcminus_nonneg (a b : Qc) : a ≤ b → 0 ≤ b - a.
Proof.
  intros Hab. apply (Qcplus_le_mono_r _ _ (- a)) in Hab.
  by rewrite Qcplus_opp_r in Hab.
Qed.

Lemma Qcabs_minus_le (v a b : Qc) : v ≤ a → a ≤ b → Qcabs.Qcabs (a - v) ≤ Qcabs.Qcabs (b - v).
Proof.
  intros Hva Hab.
  rewrite !Qcabs.Qcabs_pos.
  - by apply Qcplus_le_mono_r.
  - apply Qcminus_nonneg. by etrans.
  - by apply Qcminus_nonneg.
Qed.

Lemma clamp_below (d : descriptor) v : v < d_min d → clamp d v = d_min d.
Proof. intros Hv. unfold clamp. by rewrite decide_True. Qed.

Lemma clamp_above (d : descriptor) v :
  d_min d ≤ d_max d → d_max d < v → clamp d v = d_max d.
Proof.
  intros Hd Hv. unfold clamp. rewrite decide_False, decide_True; [done..|].
  apply Qcle_not_lt. etrans; [exact Hd|]. by apply Qclt_le_weak.
Qed.

(** C8, as the code has it.  A value outside the declared range of a slider
    is replaced by the nearest point of the range, which is the bound on its
    side, and the run of the harness is the run of the callback on that
    bound, whatever its outcome: for [solve_and_plot] the run of the solver
    with the bound as the step, be it a trajectory or an exception. *)
Theorem interact_clamps_to_nearest_bound (d : descriptor) (v : Qc) :
  d_min d ≤ d_max d → v < d_min d ∨ d_max d < v →
  (v < d_min d → clamp d v = d_min d) ∧
  (d_max d < v → clamp d v = d_max d) ∧
  (∀ w, d_min d ≤ w → w ≤ d_max d → Qcabs.Qcabs (clamp d v - v) ≤ Qcabs.Qcabs (w - v)) ∧
  interact solve_and_plot d v
  = solve_ode_euler (λ y t, inr (exp_decay_dt y t (Qc_of_Z 1)))
      (Qc_of_Z 10) (clamp d v) (Qc_of_Z 10).
Proof.
  intros Hd Hout.
  split; [apply clamp_below|]. split; [by apply clamp_above|].
  split; [|done].
  intros w Hlo Hhi. destruct Hout as [Hv|Hv].
  - rewrite clamp_below by done.
    apply Qcabs_minus_le; [by apply Qclt_le_weak|done].
  - rewrite clamp_above by done.
    rewrite <- (Qcabs.Qcabs_opp (d_max d - v)), <- (Qcabs.Qcabs_opp (w - v)).
    replace (- (d_max d - v)) with (- d_max d - - v) by ring.
    replace (- (w - v)) with (- w - - v) by ring.
    apply Qcabs_minus_le.
    + apply Qcopp_le_compat. by apply Qclt_le_weak.
    + by apply Qcopp_le_compat.
Qed.

Lemma interact_clamps_to_nearest_bound_witness :
  clamp Dt_slider (frac 5 1) = frac 2 1 ∧
  interact solve_and_plot Dt_slider (frac 5 1)
  = solve_ode_euler (λ y t, inr (exp_decay_dt y t (Qc_of_Z 1)))
      (Qc_of_Z 10) (frac 2 1) (Qc_of_Z 10).
Proof.
  destruct (interact_clamps_to_nearest_bound Dt_slider (frac 5 1))
    as (_ & Hmax & _ & Hrun); [done|by right|].
  split; [by apply Hmax|]. rewrite Hrun. by rewrite Hmax.
Defined.

(** C8, as the specification states it, fails on the slider of the notebook:
    its range starts at 0, so a value below the range becomes the step 0,
    with which the solver divides by zero.  The harness then computes no
    trajectory. *)
Lemma interact_below_range_raises :
  frac (-1) 1 < d_min Dt_slider ∧
  clamp Dt_slider (frac (-1) 1) = 0 ∧
  interact solve_and_plot Dt_slider (frac (-1) 1)
  = ([], inl ZeroDivisionError) ∧
  ¬ (∀ (d : descriptor) (v : Qc),
       d_min d ≤ d_max d → v < d_min d ∨ d_max d < v →
       ∃ ts ys, result (interact solve_and_plot d v) = inr (ts, ys)).
Proof.
  split; [done|]. split; [done|]. split; [done|].
  intros Hclaim.
  destruct (Hclaim Dt_slider (frac (-1) 1)) as (ts & ys & Hres);
    [done|by left|done].
Qed.
End Harness.

(** ** Bounds on [exp (-1)] *)

Section RealBounds.
Local Open Scope R_scope.

Lemma exp_pow_nat (x : R) (n : nat) : exp x ^ n = exp (INR n * x).
Proof.
  induction n as [|n IH].
  - simpl. by rewrite Rmult_0_l, exp_0.
  - rewrite S_INR, Rmult_plus_distr_r, Rmult_1_l, exp_plus, <- IH. simpl. ring.
Qed.

Lemma bernoulli_sub (x : R) (n : nat) :
  0 <= x <= 1 -> 1 - INR n * x <= (1 - x) ^ n.
Proof.
  intros Hx. induction n as [|n IH].
  - simpl. lra.
  - rewrite S_INR. simpl. pose proof (pos_INR n). nra.
Qed.

(** Euler's method on [dy/dt = -y] over a unit horizon cut into [n] steps of
    length [h]. *)
Lemma pow_one_minus_bounds (h : R) (n : nat) :
  0 < h <= 1 -> INR n * h = 1 ->
  (1 - h) * exp (-1) <= (1 - h) ^ n <= exp (-1).
Proof.
  intros Hh Hn.
  assert (Hup : (1 - h) ^ n <= exp (-1)).
  { replace (exp (-1)) with (exp (INR n * - h)) by (f_equal; lra).
    rewrite <- exp_pow_nat.
    apply pow_incr. split; [lra|]. pose proof (exp_ineq1_le (- h)). lra. }
  split; [|done].
  assert (Hb : (1 + h) ^ n <= exp 1).
  { replace (exp 1) with (exp (INR n * h)) by (f_equal; lra).
    rewrite <- exp_pow_nat.
    apply pow_incr. split; [lra|]. apply exp_ineq1_le. }
  assert (Hab : 1 - h <= (1 - h) ^ n * (1 + h) ^ n).
  { rewrite <- Rpow_mult_distr.
    replace ((1 - h) * (1 + h)) with (1 - h * h) by ring.
    etrans; [|apply bernoulli_sub; nra]. nra. }
  change (exp (-1)) with (exp (- (1))). rewrite exp_Ropp. pose proof (exp_pos 1) as He.
  assert (H0 : 0 <= (1 - h) ^ n) by (apply pow_le; lra).
  apply (Rmult_le_reg_r (exp 1)); [done|].
  rewrite Rmult_assoc, Rinv_l by lra. nra.
Qed.

Lemma exp_minus_one_bounds (n : nat) :
  (0 < n)%nat ->
  (1 - / INR n) ^ n <= exp (-1) <= / (1 + / INR n) ^ n.
Proof.
  intros Hn. assert (Hp : 0 < INR n) by (apply lt_0_INR; lia).
  assert (H1 : 1 <= INR n) by (change 1 with (INR 1); apply le_INR; lia).
  assert (Hi : 0 < / INR n <= 1).
  { split; [by apply Rinv_0_lt_compat|].
    rewrite <- Rinv_1. apply Rinv_le_contravar; lra. }
  split.
  - apply pow_one_minus_bounds; [done|]. by apply Rinv_r, Rgt_not_eq.
  - change (exp (-1)) with (exp (- (1))). rewrite exp_Ropp. apply Rinv_le_contravar.
    + apply pow_lt. lra.
    + replace (exp 1) with (exp (INR n * / INR n))
        by (f_equal; by apply Rinv_r, Rgt_not_eq).
      rewrite <- exp_pow_nat. apply pow_incr. split; [lra|].
      apply exp_ineq1_le.
Qed.

Lemma exp_minus_one_enclosure : 0.3649 <= exp (-1) <= 0.3708.
Proof.
  pose proof (exp_minus_one_bounds 64 ltac:(lia)) as [Hlo Hhi].
  replace (INR 64) with 64 in * by (by rewrite INR_IZR_INZ).
  lra.
Qed.
End RealBounds.

(** ** Euler's method on the exponential decay *)

Section Convergence.

Lemma Q2R_Qc_plus (a b : Qc) : Q2R (a + b)%Qc = (Q2R a + Q2R b)%R.
Proof.
  unfold Qcplus, Q2Qc; simpl.
  rewrite (Qeq_eqR _ _ (Qred_correct _)). apply Q2R_plus.
Qed.

Lemma Q2R_Qc_mult (a b : Qc) : Q2R (a * b)%Qc = (Q2R a * Q2R b)%R.
Proof.
  unfold Qcmult, Q2Qc; simpl.
  rewrite (Qeq_eqR _ _ (Qred_correct _)). apply Q2R_mult.
Qed.

Lemma Q2R_Qc_opp (a : Qc) : Q2R (- a)%Qc = (- Q2R a)%R.
Proof.
  unfold Qcopp, Q2Qc; simpl.
  rewrite (Qeq_eqR _ _ (Qred_correct _)). apply Q2R_opp.
Qed.

Lemma Q2R_Qc_minus (a b : Qc) : Q2R (a - b)%Qc = (Q2R a - Q2R b)%R.
Proof. unfold Qcminus. by rewrite Q2R_Qc_plus, Q2R_Qc_opp. Qed.

Lemma Q2R_Qc_pow (a : Qc) (n : nat) : Q2R (a ^ n)%Qc = (Q2R a ^ n)%R.
Proof.
  induction n as [|n IH].
  - simpl. unfold Q2R; simpl. lra.
  - cbn [Qcpower pow]. by rewrite Q2R_Qc_mult, IH.
Qed.

Local Open Scope Qc_scope.

(** The derivative function that [solve_and_plot] passes on:
    [exp_decay_dt] with its default [k=1]. *)
Lemma euler_from_decay_last (Dt : Qc) ts : ∀ y ys,
  result (euler_from (λ y t, inr (exp_decay_dt y t (frac 1 1))) Dt ts y)
    = inr ys →
  last (y :: ys) = Some (y * (1 - Dt) ^ length ts).
Proof.
  induction ts as [|t ts IH]; intros y ys; cbn [euler_from].
  - intros [= <-]. simpl. f_equal. ring.
  - rewrite bind_call, bind_ret_r. unfold result at 1. cbn [snd].
    destruct (result (euler_from _ Dt ts _)) as [e|ys'] eqn:E; [done|].
    intros [= <-]. rewrite last_cons_cons.
    etrans; [exact (IH _ _ E)|].
    f_equal. cbn [length Qcpower exp_decay_dt fadd fmul fopp Qc_PyFloat].
    change (frac 1 1) with 1. ring.
Qed.

Lemma final_state_decay (y0 Dt t_end : Qc) :
  0 < Dt → 0 ≤ t_end →
  final_state (solve_ode_euler (λ y t, inr (exp_decay_dt y t (frac 1 1)))
                 y0 Dt t_end)
  = Some (y0 * (1 - Dt) ^ Z.to_nat (Qc_trunc (t_end / Dt))).
Proof.
  intros HDt H0. destruct (n_steps_floor Dt t_end HDt H0) as [Hn _].
  pose proof (Qc_pos_nonzero _ HDt) as Hnz.
  destruct (solve_ode_euler_returns
              (λ y t, inr (exp_decay_dt y t (frac 1 1))) y0 Dt t_end)
    as (ts & ys & Hres); [done|done|by eexists|].
  unfold final_state. rewrite Hres.
  apply solve_ode_euler_returned in Hres as (-> & ys' & -> & Hys');
    [|done|done].
  rewrite (euler_from_decay_last _ _ _ _ Hys').
  rewrite length_take, length_grid. do 3 f_equal. lia.
Qed.
End Convergence.

(** ** Binary64 runs *)

Section Binary64.
Local Open Scope float_scope.

Lemma solve_ode_euler_propagates_witness :
  result (solve_ode_euler raising_dydt 10 1 3) = inl (Raised 7).
Proof.
  refine (proj1 (solve_ode_euler_propagates raising_dydt 10 1 3 0 1
                   (Raised 7) _ _)).
  - apply list_elem_of_lookup. exists 1%nat. vm_compute. reflexivity.
  - vm_compute. reflexivity.
Defined.

(** The same run in binary64: the first time values of
    [solve_and_plot(0.3)]. *)
Lemma solve_and_plot_binary64_times :
  length (time_values (solve_and_plot 0.3)) = 34%nat ∧
  take 3 (time_values (solve_and_plot 0.3))
  = [0; 0.30303030303030304; 0.60606060606060608] ∧
  last (time_values (solve_and_plot 0.3)) = Some 10.
Proof. vm_compute. done. Qed.

(** C7.  Exponential decay [dy/dt = -k*y] with [k = 1] from [y0 = 10], with
    the step 0.001 over the horizon 1: the last state of the trajectory is
    within 1% of [10 * exp (-1)], relative to it.  In exact arithmetic the
    last state is [10 * (1 - 1/1000)^1000]; in binary64 it is
    3.6769542477096362. *)
Theorem euler_exp_decay_within_one_percent :
  (∃ y : Qc,
     final_state (solve_ode_euler (λ y t, inr (exp_decay_dt y t (frac 1 1)))
                    (frac 10 1) (frac 1 1000) (frac 1 1)) = Some y ∧
     (Rabs (Q2R y - 10 * exp (-1)) <= 1 / 100 * (10 * exp (-1)))%R) ∧
  (∃ (y : float) (q : Q),
     final_state (solve_ode_euler (λ y t, inr (exp_decay_dt y t 1))
                    10 0.001 1) = Some y ∧
     y = 3.6769542477096362 ∧
     float_to_Q y = Some q ∧
     (Rabs (Q2R q - 10 * exp (-1)) <= 1 / 100 * (10 * exp (-1)))%R).
Proof.
  split.
  - eexists. split; [by apply final_state_decay|].
    replace (Z.to_nat (Qc_trunc (frac 1 1 / frac 1 1000)%Qc)) with 1000%nat
      by (by vm_compute).
    rewrite Q2R_Qc_mult, Q2R_Qc_pow, Q2R_Qc_minus.
    replace (Q2R (frac 10 1)) with 10%R by (unfold Q2R; simpl; lra).
    replace (Q2R 1%Qc) with 1%R by (unfold Q2R; simpl; lra).
    replace (Q2R (frac 1 1000)) with (1 / 1000)%R by (unfold Q2R; simpl; lra).
    destruct (pow_one_minus_bounds (1 / 1000) 1000) as [Hlo Hhi].
    { lra. }
    { rewrite INR_IZR_INZ. change (Z.of_nat 1000) with 1000%Z. lra. }
    pose proof (exp_pos (-1)) as He.
    revert Hlo Hhi He.
    generalize ((1 - 1 / 1000) ^ 1000)%R (exp (-1)). intros P E Hlo Hhi He.
    apply Rabs_le. lra.
  - eexists _, _. split; [vm_compute; reflexivity|].
    split; [reflexivity|]. split; [vm_compute; reflexivity|].
    pose proof exp_minus_one_enclosure as [Hlo Hhi].
    unfold Q2R; simpl. revert Hlo Hhi. generalize (exp (-1)).
    intros E Hlo Hhi. apply Rabs_le. lra.
Qed.

(** The step 0.0 in binary64: the division [t_end / Dt] raises. *)
Lemma solve_and_plot_binary64_zero_step :
  solve_and_plot 0 = ([], inl ZeroDivisionError).
Proof. vm_compute. reflexivity. Qed.

(** The sample after [(0, 10)] of [solve_and_plot(0.3)] in binary64. *)
Lemma solve_and_plot_binary64_sample :
  samples (trajectory (solve_and_plot 0.3)) !! 1%nat
  = Some (0.30303030303030304, 7).
Proof. vm_compute. reflexivity. Qed.
End Binary64.

(** * Further properties of the solver *)

(** ** Any arithmetic *)

Section Trajectory.
Context {A : Type} `{PyFloat A}.

(** A returned trajectory comes from a loop that ran to its end along all
    time points but the last. *)
Lemma solve_ode_euler_inr dydt (y0 Dt t_end : A) ts ys :
  result (solve_ode_euler dydt y0 Dt t_end) = inr (ts, ys) →
  ∃ ys', ys = y0 :: ys' ∧ length ts = S (length ys') ∧
    result (euler_from dydt Dt (take (length ys') ts) y0) = inr ys' ∧
    calls (solve_ode_euler dydt y0 Dt t_end)
    = calls (euler_from dydt Dt (take (length ys') ts) y0).
Proof.
  destruct (py_div t_end Dt) as [e|q] eqn:Hq.
  { unfold solve_ode_euler. by rewrite Hq. }
  destruct (to_int q) as [e|n] eqn:Hn.
  { unfold solve_ode_euler. by rewrite Hq, bind_lift_inr, Hn. }
  destruct (linspace fzero t_end (n + 1)) as [e|ts0] eqn:Hts.
  { unfold solve_ode_euler. by rewrite Hq, bind_lift_inr, Hn, bind_lift_inr, Hts. }
  destruct (decide (0 ≤ n)%Z) as [Hpos|Hneg].
  - rewrite (solve_ode_euler_run _ _ _ _ _ _ _ Hq Hn Hpos Hts), bind_ret_r.
    unfold result at 1, calls at 1. cbn [fst snd].
    destruct (result (euler_from dydt Dt (take (Z.to_nat n) ts0) y0))
      as [e|ys'] eqn:E; [done|].
    intros [= <- <-]. exists ys'.
    pose proof (euler_from_length _ _ _ _ _ E) as Hlen.
    apply linspace_length in Hts.
    rewrite length_take in Hlen.
    assert (length ys' = Z.to_nat n) as Hn' by lia.
    rewrite Hn'. split; [done|]. split; [lia|]. by split.
  - unfold solve_ode_euler.
    rewrite Hq, bind_lift_inr, Hn, bind_lift_inr, Hts, bind_lift_inr.
    assert (n + 1 = 0)%Z as Hn1.
    { unfold linspace in Hts. destruct (n + 1 <? 0)%Z eqn:E; [done|lia]. }
    by rewrite Hn1.
Qed.

(** The states that [euler_from] computes obey the recurrence of the loop. *)
Lemma euler_from_recurrence dydt Dt (ts : list A) : ∀ y0 ys i yi ti,
  result (euler_from dydt Dt ts y0) = inr ys →
  (y0 :: ys) !! i = Some yi → ts !! i = Some ti →
  ∃ d, dydt yi ti = inr d ∧ (y0 :: ys) !! S i = Some (fadd yi (fmul d Dt)).
Proof.
  induction ts as [|t ts IH]; intros y0 ys i yi ti; cbn [euler_from].
  - by intros _ _ ?.
  - rewrite bind_call. destruct (dydt y0 t) as [e|d] eqn:Hd; [done|].
    rewrite bind_ret_r. unfold result at 1. cbn [snd].
    destruct (result (euler_from dydt Dt ts _)) as [e|ys'] eqn:E; [done|].
    intros [= <-]. destruct i as [|i].
    + intros [= <-] [= <-]. exists d. by split.
    + intros Hyi Hti. exact (IH _ _ _ _ _ E Hyi Hti).
Qed.

(** The calls that a completed loop made: the state and the time of each
    turn, in order. *)
Lemma euler_from_calls dydt Dt (ts : list A) : ∀ y0 ys,
  result (euler_from dydt Dt ts y0) = inr ys →
  calls (euler_from dydt Dt ts y0) = zip (y0 :: ys) ts.
Proof.
  induction ts as [|t ts IH]; intros y0 ys; cbn [euler_from].
  - by intros [= <-].
  - rewrite bind_call. destruct (dydt y0 t) as [e|d] eqn:Hd; [done|].
    rewrite bind_ret_r. unfold result at 1, calls at 1. cbn [fst snd].
    destruct (result (euler_from dydt Dt ts _)) as [e|ys'] eqn:E; [done|].
    intros [= <-]. unfold calls at 1. cbn [fst zip zip_with].
    f_equal. exact (IH _ _ E).
Qed.

(** A loop that raised made at least one call; its last call raised the
    exception and the calls before it returned. *)
Lemma euler_from_inl dydt Dt (ts : list A) : ∀ y0 e,
  result (euler_from dydt Dt ts y0) = inl e →
  ∃ l y t, calls (euler_from dydt Dt ts y0) = l ++ [(y, t)] ∧
    dydt y t = inl e ∧ ∀ y' t', (y', t') ∈ l → ∃ d, dydt y' t' = inr d.
Proof.
  induction ts as [|t ts IH]; intros y0 e; cbn [euler_from].
  - done.
  - rewrite bind_call. destruct (dydt y0 t) as [e'|d] eqn:Hd.
    + intros [= <-]. exists [], y0, t. split; [done|]. split; [done|].
      by intros ?? ?%elem_of_nil.
    + rewrite bind_ret_r. unfold result at 1, calls at 1. cbn [fst snd].
      destruct (result (euler_from dydt Dt ts _)) as [e'|ys'] eqn:E; [|done].
      intros [= <-]. destruct (IH _ _ E) as (l & y & t' & Hc & He & Hl).
      exists ((y0, t) :: l), y, t'. unfold calls at 1. cbn [fst].
      rewrite Hc. split; [done|]. split; [done|].
      intros y' t'' [[= -> ->]|Hin]%elem_of_cons; [by eexists|by apply Hl].
Qed.

(** X1.  In any arithmetic and for any arguments, a trajectory that the
    solver returns is not empty, pairs every time value with a state, starts
    with the initial state as it was given, and was computed with one call
    of the derivative function for each sample after the first. *)
Theorem solve_ode_euler_trajectory_shape dydt (y0 Dt t_end : A) ts ys :
  result (solve_ode_euler dydt y0 Dt t_end) = inr (ts, ys) →
  length ts = length ys ∧ ys !! 0 = Some y0 ∧
  length (calls (solve_ode_euler dydt y0 Dt t_end)) + 1 = length ys.
Proof.
  intros (ys' & -> & Hlen & Hres & ->)%solve_ode_euler_inr.
  rewrite (euler_from_calls _ _ _ _ _ Hres), length_zip, length_take.
  cbn [length]. split; [done|]. split; [done|lia].
Qed.

(** X2.  In any arithmetic, the states of a returned trajectory obey the
    Euler recurrence: each state after the first is the one before it plus
    the step times the derivative, evaluated at the state and the time value
    before it, and that evaluation returned. *)
Theorem solve_ode_euler_recurrence dydt (y0 Dt t_end : A) ts ys i yi ti :
  result (solve_ode_euler dydt y0 Dt t_end) = inr (ts, ys) →
  S i < length ys → ys !! i = Some yi → ts !! i = Some ti →
  ∃ d, dydt yi ti = inr d ∧ ys !! S i = Some (fadd yi (fmul d Dt)).
Proof.
  intros (ys' & -> & Hlen & Hres & _)%solve_ode_euler_inr Hi Hyi Hti.
  cbn [length] in Hi.
  apply (euler_from_recurrence _ _ _ _ _ _ _ ti Hres Hyi).
  rewrite lookup_take_lt by lia. done.
Qed.

(** X3.  In any arithmetic, the calls of the derivative function that led to
    a returned trajectory are, in order, the pairs of the state and the time
    value of every sample but the last: the derivative is never evaluated at
    the last time value. *)
Theorem solve_ode_euler_calls dydt (y0 Dt t_end : A) ts ys :
  result (solve_ode_euler dydt y0 Dt t_end) = inr (ts, ys) →
  calls (solve_ode_euler dydt y0 Dt t_end)
  = take (length ys - 1) (zip ys ts).
Proof.
  intros (ys' & -> & Hlen & Hres & ->)%solve_ode_euler_inr.
  rewrite (euler_from_calls _ _ _ _ _ Hres). cbn [length].
  replace (S (length ys') - 1) with (length ys') by lia.
  rewrite zip_with_take. symmetry. apply zip_with_take_l'.
  rewrite length_take. cbn [length]. lia.
Qed.

(** X4.  In any arithmetic, a run that raised after calling the derivative
    function ended with the exception of its last call, and every call
    before that one returned: the loop raises nothing of its own. *)
Theorem solve_ode_euler_failure dydt (y0 Dt t_end : A) e :
  result (solve_ode_euler dydt y0 Dt t_end) = inl e →
  calls (solve_ode_euler dydt y0 Dt t_end) ≠ [] →
  ∃ l y t, calls (solve_ode_euler dydt y0 Dt t_end) = l ++ [(y, t)] ∧
    dydt y t = inl e ∧ ∀ y' t', (y', t') ∈ l → ∃ d, dydt y' t' = inr d.
Proof.
  destruct (solve_ode_euler_shape dydt y0 Dt t_end)
    as [[e' Hs]|(ts & k & Hs)]; rewrite Hs.
  - by intros _ ?.
  - rewrite bind_ret_r. unfold result at 1, calls at 1 2. cbn [fst snd].
    destruct (result (euler_from dydt Dt (take k ts) y0)) as [e'|ys] eqn:E;
      [|done].
    intros [= <-] _. exact (euler_from_inl _ _ _ _ _ E).
Qed.
End Trajectory.

(** ** Runs in binary64 that the statements above are about *)

Section TrajectoryWitnesses.
Local Open Scope float_scope.

Lemma solve_ode_euler_trajectory_shape_witness :
  length [0; 0.5; 1] = length [10; 5; 2.5] ∧
  length (calls (solve_ode_euler (λ y t, inr (exp_decay_dt y t 1)) 10 0.5 1))
    = 2%nat.
Proof.
  destruct (solve_ode_euler_trajectory_shape
              (λ y t, inr (exp_decay_dt y t 1)) 10 0.5 1
              [0; 0.5; 1] [10; 5; 2.5]) as (Hl & _ & Hc);
    [vm_compute; reflexivity|].
  split; [exact Hl|]. cbn [length] in Hc. lia.
Defined.

Lemma solve_ode_euler_recurrence_witness :
  ∃ d, exp_decay_dt 5 0.5 1 = d ∧
    [10; 5; 2.5] !! 2%nat = Some (5 + d * 0.5).
Proof.
  destruct (solve_ode_euler_recurrence
              (λ y t, inr (exp_decay_dt y t 1)) 10 0.5 1
              [0; 0.5; 1] [10; 5; 2.5] 1 5 0.5) as (d & [= Hd] & Hy);
    [vm_compute; reflexivity|simpl; lia|done|done|].
  exists d. by split.
Defined.

Lemma solve_ode_euler_calls_witness :
  calls (solve_ode_euler (λ y t, inr (exp_decay_dt y t 1)) 10 0.5 1)
  = [(10, 0); (5, 0.5)].
Proof.
  rewrite (solve_ode_euler_calls (λ y t, inr (exp_decay_dt y t 1)) 10 0.5 1
             [0; 0.5; 1] [10; 5; 2.5]); [done|vm_compute; reflexivity].
Defined.

Lemma solve_ode_euler_failure_witness :
  ∃ l y t, calls (solve_ode_euler raising_dydt 10 1 3) = l ++ [(y, t)] ∧
    raising_dydt y t = inl (Raised 7).
Proof.
  destruct (solve_ode_euler_failure raising_dydt 10 1 3 (Raised 7))
    as (l & y & t & Hc & He & _);
    [vm_compute; reflexivity|vm_compute; discriminate|].
  by exists l, y, t.
Defined.
End TrajectoryWitnesses.

(** ** Exact arithmetic, through the reals *)

Section QcReals.

Lemma Qcle_Rle_iff (x y : Qc) : (x ≤ y)%Qc ↔ (Q2R x <= Q2R y)%R.
Proof. split; [apply Qle_Rle|apply Rle_Qle]. Qed.

Lemma Qclt_Rlt_iff (x y : Qc) : (x < y)%Qc ↔ (Q2R x < Q2R y)%R.
Proof. split; [apply Qlt_Rlt|apply Rlt_Qlt]. Qed.

Lemma Q2R_Qc_0 : Q2R 0%Qc = 0%R.
Proof. unfold Q2R; simpl. lra. Qed.

Lemma Q2R_Qc_1 : Q2R 1%Qc = 1%R.
Proof. unfold Q2R; simpl. lra. Qed.

Lemma Q2R_Qc_of_Z (k : Z) : Q2R (Qc_of_Z k) = IZR k.
Proof. unfold Q2R; simpl. lra. Qed.

End QcReals.

(** ** The time grid and the step *)

Section GridFacts.
Local Open Scope Qc_scope.

Lemma Qc_of_Z_pos n : (0 < n)%Z → 0 < Qc_of_Z n.
Proof. intros Hn. rewrite <- Z2Qc_inj_0. by apply (proj1 (Z2Qc_inj_lt _ _)). Qed.

Lemma Qc_of_Z_nonneg n : (0 ≤ n)%Z → 0 ≤ Qc_of_Z n.
Proof. intros Hn. rewrite <- Z2Qc_inj_0. by apply (proj1 (Z2Qc_inj_le _ _)). Qed.

Lemma Qc_of_Z_lt n m : (n < m)%Z → Qc_of_Z n < Qc_of_Z m.
Proof. apply Z2Qc_inj_lt. Qed.

Lemma Qc_of_Z_le n m : (n ≤ m)%Z → Qc_of_Z n ≤ Qc_of_Z m.
Proof. apply Z2Qc_inj_le. Qed.

(** With at least one step, the horizon is at least [n] steps long and
    shorter than [n + 1] steps. *)
Lemma n_steps_bounds (Dt t_end : Qc) :
  0 < Dt → 0 ≤ t_end →
  Qc_of_Z (Qc_trunc (t_end / Dt)) * Dt ≤ t_end ∧
  t_end < (Qc_of_Z (Qc_trunc (t_end / Dt)) + 1) * Dt.
Proof.
  intros HDt H0. pose proof (Qc_pos_nonzero _ HDt) as Hnz.
  destruct (Qc_trunc_nonneg (t_end / Dt)) as (_ & _ & Hlo & Hhi);
    [by apply Qcdiv_nonneg|].
  rewrite Z2Qc_inj_add, Z2Qc_inj_1 in Hhi.
  replace t_end with (t_end / Dt * Dt) at 2 3 by (field; done).
  split.
  - by apply Qcmult_le_mono_pos_r.
  - by apply Qcmult_lt_mono_pos_r.
Qed.

(** The run of [solve_and_plot]'s solver call with the step 3/10. *)
Lemma run_at_03 :
  ∃ ys, result (solve_ode_euler (λ y t, inr (exp_decay_dt y t (frac 1 1)))
                  (frac 10 1) (frac 3 10) (frac 10 1))
        = inr (grid (frac 10 1) 33, ys).
Proof.
  assert (Hn : Qc_trunc (frac 10 1 / frac 3 10) = 33%Z) by (by vm_compute).
  destruct (solve_ode_euler_returns
              (λ y t, inr (exp_decay_dt y t (frac 1 1)))
              (frac 10 1) (frac 3 10) (frac 10 1)) as (ts & ys & Hres);
    [done|by rewrite Hn|by eexists|].
  exists ys. rewrite Hres.
  apply solve_ode_euler_returned in Hres as (-> & _); [|done|by rewrite Hn].
  by rewrite Hn.
Qed.

(** X5.  For a step [Dt > 0] and a horizon [t_end >= 0], the time values of
    a returned trajectory are strictly increasing and lie between 0 and the
    horizon. *)
Theorem solve_ode_euler_times_increasing dydt (y0 Dt t_end : Qc) ts ys :
  0 < Dt → 0 ≤ t_end →
  result (solve_ode_euler dydt y0 Dt t_end) = inr (ts, ys) →
  (∀ i j a b, (i < j)%nat → ts !! i = Some a → ts !! j = Some b → a < b) ∧
  (∀ i a, ts !! i = Some a → 0 ≤ a ∧ a ≤ t_end).
Proof.
  intros HDt H0 Hres. destruct (n_steps_floor Dt t_end HDt H0) as [Hn _].
  pose proof (Qc_pos_nonzero _ HDt) as Hnz.
  apply solve_ode_euler_returned in Hres as (-> & _); [|done..].
  destruct (n_steps_bounds Dt t_end HDt H0) as [Hlo _].
  set (n := Qc_trunc (t_end / Dt)) in *.
  destruct (decide (n = 0%Z)) as [->|Hn0].
  { rewrite grid_zero. split.
    - intros i j a b Hij _ Hb. apply lookup_lt_Some in Hb. simpl in Hb. lia.
    - intros i a Ha%list_elem_of_lookup_2%list_elem_of_singleton. by subst. }
  assert (Hnpos : 0 < Qc_of_Z n) by (apply Qc_of_Z_pos; lia).
  pose proof (Qc_pos_nonzero _ Hnpos) as Hnnz.
  assert (Hh : 0 < t_end / Qc_of_Z n).
  { apply Qcmult_pos_pos; [|by apply Qcinv_pos].
    eapply Qclt_le_trans; [|exact Hlo]. by apply Qcmult_pos_pos. }
  split.
  - intros i j a b Hij [_ ->]%grid_lookup_inv [_ ->]%grid_lookup_inv.
    apply Qcmult_lt_mono_pos_r; [done|]. apply Qc_of_Z_lt. lia.
  - intros i a [Hi ->]%grid_lookup_inv. split.
    + apply Qcmult_nonneg_nonneg; [|by apply Qclt_le_weak].
      apply Qc_of_Z_nonneg. lia.
    + replace t_end with (Qc_of_Z n * (t_end / Qc_of_Z n)) at 2
        by (field; done).
      apply Qcmult_le_mono_pos_r; [done|]. apply Qc_of_Z_le. lia.
Qed.

Lemma solve_ode_euler_times_increasing_witness :
  ∃ ts ys a b,
    result (solve_ode_euler (λ y t, inr (exp_decay_dt y t (frac 1 1)))
              (frac 10 1) (frac 3 10) (frac 10 1)) = inr (ts, ys) ∧
    ts !! 1%nat = Some a ∧ ts !! 2%nat = Some b ∧ a < b.
Proof.
  destruct run_at_03 as [ys Hres].
  eexists _, ys, _, _. split; [exact Hres|].
  split; [apply grid_lookup; simpl; lia|]. split; [apply grid_lookup; simpl; lia|].
  assert (HDt : 0 < frac 3 10) by done.
  assert (H0 : 0 ≤ frac 10 1) by done.
  destruct (solve_ode_euler_times_increasing _ _ _ _ _ ys HDt H0 Hres)
    as [Hinc _].
  apply (Hinc 1%nat 2%nat); [lia|apply grid_lookup; simpl; lia..].
Defined.

End GridFacts.

(** ** The exponential decay under Euler's method *)

Section DecayFacts.
Local Open Scope Qc_scope.

(** With [exp_decay_dt] every turn of the loop multiplies the state by
    [1 - k * Dt]. *)
Lemma euler_from_decay_states (k Dt : Qc) ts : ∀ y,
  result (euler_from (λ y t, inr (exp_decay_dt y t k)) Dt ts y)
  = inr ((λ i, y * (1 - k * Dt) ^ i) <$> seq 1 (length ts)).
Proof.
  induction ts as [|t ts IH]; intros y; cbn [euler_from].
  - done.
  - rewrite bind_call, bind_ret_r, IH. unfold result. cbn [snd].
    cbn [length seq fmap list_fmap]. f_equal. f_equal.
    + cbn [exp_decay_dt fadd fmul fopp Qc_PyFloat Qcpower]. ring.
    + rewrite <- (fmap_S_seq 1), <- list_fmap_compose.
      apply list_fmap_ext. intros _ i _.
      cbn [compose exp_decay_dt fadd fmul fopp Qc_PyFloat Qcpower]. ring.
Qed.

Lemma solve_ode_euler_decay_run (k y0 Dt t_end : Qc) :
  Dt ≠ 0 → (0 ≤ Qc_trunc (t_end / Dt))%Z →
  result (solve_ode_euler (λ y t, inr (exp_decay_dt y t k)) y0 Dt t_end)
  = inr (grid t_end (Qc_trunc (t_end / Dt)),
         (λ i, y0 * (1 - k * Dt) ^ i)
           <$> seq 0 (S (Z.to_nat (Qc_trunc (t_end / Dt))))).
Proof.
  intros Hnz Hn.
  rewrite solve_ode_euler_exact, bind_ret_r by done.
  rewrite euler_from_decay_states. unfold result. cbn [snd].
  do 2 f_equal.
  rewrite length_take, length_grid. cbn [seq fmap list_fmap].
  f_equal; [cbn [Qcpower]; ring|]. f_equal. f_equal. lia.
Qed.

(** Inequalities between rationals, decided over the reals. *)
Ltac qc_push :=
  repeat first
    [ rewrite Q2R_Qc_plus | rewrite Q2R_Qc_minus | rewrite Q2R_Qc_mult
    | rewrite Q2R_Qc_opp | rewrite Q2R_Qc_0 | rewrite Q2R_Qc_1
    | rewrite Q2R_Qc_of_Z ].

Ltac qc_lra :=
  repeat match goal with
         | H : (_ ≤ _)%Qc |- _ => apply Qcle_Rle_iff in H
         | H : (_ < _)%Qc |- _ => apply Qclt_Rlt_iff in H
         end;
  rewrite ?Qcle_Rle_iff, ?Qclt_Rlt_iff;
  repeat match goal with
         | H : context [Q2R _] |- _ =>
             progress (rewrite ?Q2R_Qc_plus, ?Q2R_Qc_minus, ?Q2R_Qc_mult,
                         ?Q2R_Qc_opp, ?Q2R_Qc_0, ?Q2R_Qc_1, ?Q2R_Qc_of_Z in H)
         end;
  qc_push; try lra.

Lemma Rpow_between (x : R) (n : nat) :
  (-1 <= x <= 1)%R → (-1 <= x ^ n <= 1)%R.
Proof.
  intros Hx. induction n as [|n IH]; simpl; [lra|nra].
Qed.

(** The states of [solve_and_plot(Dt)]: [10 * (1 - Dt) ^ i]. *)
Lemma solve_and_plot_states (Dt : Qc) :
  0 < Dt →
  ∃ ts, result (solve_and_plot Dt)
        = inr (ts, (λ i, Qc_of_Z 10 * (1 - Dt) ^ i)
                     <$> seq 0 (S (Z.to_nat (Qc_trunc (Qc_of_Z 10 / Dt))))).
Proof.
  intros HDt. unfold solve_and_plot. cbn [of_int Qc_PyFloat].
  destruct (n_steps_floor Dt (Qc_of_Z 10) HDt) as [Hn _]; [done|].
  rewrite solve_ode_euler_decay_run by (by apply Qc_pos_nonzero || done).
  eexists. do 2 f_equal.
  apply list_fmap_ext. intros _ i _. rewrite Z2Qc_inj_1. do 3 f_equal. ring.
Qed.

(** X8.  For every step of the slider's range but 0, [0 < Dt <= 2],
    [solve_and_plot(Dt)] returns a trajectory whose states all lie between
    -10 and 10: on that range Euler's method does not blow up. *)
Theorem solve_and_plot_bounded (Dt : Qc) :
  0 < Dt → Dt ≤ 2 →
  ∃ ts ys, result (solve_and_plot Dt) = inr (ts, ys) ∧
    ∀ i y, ys !! i = Some y → - Qc_of_Z 10 ≤ y ∧ y ≤ Qc_of_Z 10.
Proof.
  intros HDt Hle. destruct (solve_and_plot_states Dt HDt) as [ts Hres].
  eexists ts, _. split; [exact Hres|].
  intros i y [j [-> _]]%list_lookup_fmap_Some.
  assert (Hr : (-1 <= Q2R (1 - Dt)%Qc <= 1)%R) by qc_lra.
  pose proof (Rpow_between _ j Hr) as Hp.
  rewrite !Qcle_Rle_iff, Q2R_Qc_opp, Q2R_Qc_mult, Q2R_Qc_pow, Q2R_Qc_of_Z.
  lra.
Qed.

Lemma solve_and_plot_bounded_witness :
  ∃ ts ys, result (solve_and_plot (frac 3 2)) = inr (ts, ys) ∧
    ∀ i y, ys !! i = Some y → - Qc_of_Z 10 ≤ y ∧ y ≤ Qc_of_Z 10.
Proof. by apply (solve_and_plot_bounded (frac 3 2)). Defined.

(** X9.  For a step [0 < Dt <= 1], the states of [solve_and_plot(Dt)] never
    become negative and never increase, as the decay they approximate. *)
Theorem solve_and_plot_decays (Dt : Qc) :
  0 < Dt → Dt ≤ 1 →
  ∃ ts ys, result (solve_and_plot Dt) = inr (ts, ys) ∧
    ∀ i a b, ys !! i = Some a → ys !! S i = Some b → 0 ≤ b ∧ b ≤ a.
Proof.
  intros HDt Hle. destruct (solve_and_plot_states Dt HDt) as [ts Hres].
  eexists ts, _. split; [exact Hres|].
  intros i a b [j [-> Hj]]%list_lookup_fmap_Some
    [j' [-> Hj']]%list_lookup_fmap_Some.
  apply lookup_seq in Hj as [-> _]. apply lookup_seq in Hj' as [-> _].
  assert (Hr : (0 <= Q2R (1 - Dt)%Qc <= 1)%R) by qc_lra.
  pose proof (pow_le _ i (proj1 Hr)) as Hp.
  rewrite !Qcle_Rle_iff, !Q2R_Qc_mult, !Q2R_Qc_pow, Q2R_Qc_of_Z, Q2R_Qc_0.
  cbn [Nat.add pow]. nra.
Qed.

Lemma solve_and_plot_decays_witness :
  ∃ ts ys, result (solve_and_plot (frac 1 2)) = inr (ts, ys) ∧
    ∀ i a b, ys !! i = Some a → ys !! S i = Some b → 0 ≤ b ∧ b ≤ a.
Proof. by apply (solve_and_plot_decays (frac 1 2)). Defined.

Lemma Qcpower_nonzero (r : Qc) n : r ≠ 0 → r ^ n ≠ 0.
Proof.
  intros Hr. induction n as [|n IH]; cbn [Qcpower]; [done|].
  by intros [?|?]%Qcmult_integral.
Qed.

(** X10.  For a step [Dt > 2], beyond the slider's range, the states of
    [solve_and_plot(Dt)] grow in magnitude from each sample to the next:
    Euler's method is unstable there. *)
Theorem solve_and_plot_unstable (Dt : Qc) ts ys i a b :
  2 < Dt →
  result (solve_and_plot Dt) = inr (ts, ys) →
  ys !! i = Some a → ys !! S i = Some b →
  Qcabs.Qcabs a < Qcabs.Qcabs b.
Proof.
  intros HDt Hres.
  assert (H0 : 0 < Dt) by (etrans; [|exact HDt]; done).
  destruct (solve_and_plot_states Dt H0) as [ts' Hres'].
  rewrite Hres in Hres'. apply (inj inr), pair_equal_spec in Hres' as [-> ->].
  intros [j [-> Hj]]%list_lookup_fmap_Some [j' [-> Hj']]%list_lookup_fmap_Some.
  apply lookup_seq in Hj as [-> _]. apply lookup_seq in Hj' as [-> _].
  cbn [Nat.add Qcpower].
  assert (Hr : 1 - Dt < -1) by qc_lra.
  assert (Hrz : 1 - Dt ≠ 0).
  { intros Hz. rewrite Hz in Hr. done. }
  replace (Qc_of_Z 10 * ((1 - Dt) * (1 - Dt) ^ i))
    with (Qc_of_Z 10 * (1 - Dt) ^ i * (1 - Dt)) by ring.
  rewrite (Qcabs.Qcabs_Qcmult _ (1 - Dt)).
  rewrite <- (Qcmult_1_r (Qcabs.Qcabs (Qc_of_Z 10 * (1 - Dt) ^ i))) at 1.
  apply Qcmult_lt_mono_pos_l.
  - destruct (Qcle_lt_or_eq _ _ (Qcabs.Qcabs_nonneg (Qc_of_Z 10 * (1 - Dt) ^ i)))
      as [Hpos|Heq]; [done|].
    symmetry in Heq. apply Qcabs.Qcabs_null in Heq.
    apply Qcmult_integral in Heq as [Heq|Heq]; [done|].
    by apply Qcpower_nonzero in Heq.
  - rewrite Qcabs.Qcabs_neg by qc_lra. qc_lra.
Qed.

Lemma solve_and_plot_unstable_witness :
  ∃ ts ys a b, result (solve_and_plot (frac 5 1)) = inr (ts, ys) ∧
    ys !! 1%nat = Some a ∧ ys !! 2%nat = Some b ∧
    Qcabs.Qcabs a < Qcabs.Qcabs b.
Proof.
  destruct (solve_and_plot_states (frac 5 1)) as [ts Hres]; [done|].
  eexists ts, _, _, _. split; [exact Hres|].
  split; [reflexivity|]. split; [reflexivity|].
  eapply (solve_and_plot_unstable (frac 5 1) ts _ 1%nat);
    [done|exact Hres|reflexivity..].
Defined.
End DecayFacts.

(** ** A derivative that does not depend on the time *)

Section Autonomous.
Context {A : Type} `{PyFloat A}.

(** The loop along fewer time points computes the first states of the loop
    along all of them. *)
Lemma euler_from_take dydt Dt (ts : list A) : ∀ y ys k,
  result (euler_from dydt Dt ts y) = inr ys →
  result (euler_from dydt Dt (take k ts) y) = inr (take k ys).
Proof.
  induction ts as [|t ts IH]; intros y ys k; cbn [euler_from].
  - intros [= <-]. by destruct k.
  - destruct k as [|k]; [done|]. cbn [take euler_from].
    rewrite !bind_call. destruct (dydt y t) as [e|d]; [done|].
    rewrite !bind_ret_r. unfold result at 1 3. cbn [snd].
    destruct (result (euler_from dydt Dt ts _)) as [e|ys'] eqn:E; [done|].
    intros [= <-]. by rewrite (IH _ _ k E).
Qed.

(** When the derivative ignores the time, only the number of time points
    matters to the loop. *)
Lemma euler_from_autonomous dydt Dt (ts1 : list A) : ∀ ts2 y,
  (∀ y t t', dydt y t = dydt y t') → length ts1 = length ts2 →
  result (euler_from dydt Dt ts1 y) = result (euler_from dydt Dt ts2 y).
Proof.
  induction ts1 as [|t1 ts1 IH]; intros [|t2 ts2] y Hd Hlen;
    try done; cbn [euler_from].
  rewrite !bind_call, (Hd y t1 t2).
  destruct (dydt y t2) as [e|d]; [done|].
  rewrite !bind_ret_r. unfold result at 1 3. cbn [snd].
  rewrite (IH ts2); [done|done|]. simpl in Hlen. lia.
Qed.
End Autonomous.

Section AutonomousPrefix.
Context {A : Type} `{PyFloat A}.

(** X11.  In any arithmetic, when the derivative function does not depend on
    the time, a longer horizon with the same step and the same initial state
    only extends the states: of two returned trajectories the states of the
    shorter one are the first states of the longer one. *)
Theorem solve_ode_euler_autonomous_prefix dydt (y0 Dt t_end t_end' : A)
    ts ys ts' ys' :
  (∀ y t t', dydt y t = dydt y t') →
  result (solve_ode_euler dydt y0 Dt t_end) = inr (ts, ys) →
  result (solve_ode_euler dydt y0 Dt t_end') = inr (ts', ys') →
  length ys ≤ length ys' →
  ys = take (length ys) ys'.
Proof.
  intros Hd (tl & -> & Hlen & Hres & _)%solve_ode_euler_inr
    (tl' & -> & Hlen' & Hres' & _)%solve_ode_euler_inr Hle.
  cbn [length] in *. cbn [take]. f_equal.
  apply (euler_from_take _ _ _ _ _ (length tl)) in Hres'.
  rewrite (euler_from_autonomous _ _ _
             (take (length tl) (take (length tl') ts'))) in Hres;
    [congruence|done|].
  rewrite !length_take. lia.
Qed.
End AutonomousPrefix.

Section AutonomousBinary64.
Local Open Scope float_scope.

Lemma solve_ode_euler_autonomous_prefix_witness :
  ∃ ts ys ts' ys',
    result (solve_ode_euler (λ y t, inr (exp_decay_dt y t 1)) 10 0.1 0.7)
      = inr (ts, ys) ∧
    result (solve_ode_euler (λ y t, inr (exp_decay_dt y t 1)) 10 0.1 10)
      = inr (ts', ys') ∧
    length ys = 7%nat ∧ ys = take 7 ys'.
Proof.
  pose (run := result (solve_ode_euler (λ y t, inr (exp_decay_dt y t 1))
                         10 0.1 0.7)).
  pose (run' := result (solve_ode_euler (λ y t, inr (exp_decay_dt y t 1))
                          10 0.1 10)).
  assert (Hres : ∃ ts ys, run = inr (ts, ys) ∧ length ys = 7%nat).
  { vm_compute. by eexists _, _. }
  assert (Hres' : ∃ ts ys, run' = inr (ts, ys) ∧ length ys = 101%nat).
  { vm_compute. by eexists _, _. }
  destruct Hres as (ts & ys & Hres & Hlen).
  destruct Hres' as (ts' & ys' & Hres' & Hlen').
  unfold run in Hres. unfold run' in Hres'.
  exists ts, ys, ts', ys'. split; [exact Hres|]. split; [exact Hres'|].
  split; [exact Hlen|]. rewrite <- Hlen.
  apply (solve_ode_euler_autonomous_prefix
           (λ y t, inr (exp_decay_dt y t 1)) 10 0.1 0.7 10 ts ys ts' ys');
    [done|exact Hres|exact Hres'|rewrite Hlen, Hlen'; lia].
Defined.
End AutonomousBinary64.

(** * Properties of the model of [unnamed/part_000] *)

Section CubicSystemFacts.
Local Open Scope Qc_scope.

(** The two rates in factored form. *)
Lemma lv_system_run (x y : Qc) (l : list Qc) (t a b g d e : Qc) :
  lv_system (x :: y :: l) t a b g d e
  = inr [x * (a - b * x - g * y); y * (d - e * y ^ 2 - x)].
Proof.
  cbn [lv_system getitem lookup list_lookup]. cbv zeta. cbn [Qcpower].
  do 2 f_equal; [ring|f_equal; ring].
Qed.

Lemma rates_eq (u v u' v' : Qc) :
  (inr [u; v] : res (list Qc)) = inr [u'; v'] ↔ u = u' ∧ v = v'.
Proof. split; [intros Heq; split; congruence|by intros [-> ->]]. Qed.

Lemma Qcminus_eq_0 (p q : Qc) : p - q = 0 ↔ p = q.
Proof.
  split; [|intros ->; ring]. intros Hpq.
  replace p with (p - q + q) by ring. rewrite Hpq. ring.
Qed.

(** X17.  In exact arithmetic and for every state, both rates are zero
    exactly when the state has at least two entries [x], [y] with
    [x = 0] or [a = b*x + g*y], and [y = 0] or [d = e*y^2 + x]. *)
Theorem lv_system_fixed_point (xs : list Qc) (t a b g d e : Qc) :
  lv_system xs t a b g d e = inr [0; 0] ↔
  ∃ x y l, xs = x :: y :: l ∧
    (x = 0 ∨ a = b * x + g * y) ∧ (y = 0 ∨ d = e * y ^ 2 + x).
Proof.
  split.
  - destruct xs as [|x [|y l]]; [done..|]. rewrite lv_system_run, rates_eq.
    intros [Hx Hy]. exists x, y, l. split; [done|]. split.
    + apply Qcmult_integral in Hx as [?|Hx]; [by left|right].
      apply Qcminus_eq_0. rewrite <- Hx. ring.
    + apply Qcmult_integral in Hy as [?|Hy]; [by left|right].
      apply Qcminus_eq_0. rewrite <- Hy. ring.
  - intros (x & y & l & -> & Hx & Hy). rewrite lv_system_run, rates_eq.
    split.
    + destruct Hx as [->| ->]; ring.
    + destruct Hy as [->| ->]; ring.
Qed.

(** X18.  In exact arithmetic and for [b <> 0], the states [x, y] where both
    rates are zero are those of the four families that the notebook derives
    symbolically: the origin; [x = 0] with [e*y^2 = d]; [x = a/b] with
    [y = 0]; and [x = (a - g*y)/b] with [b*e*y^2 - g*y + a - b*d = 0]. *)
Theorem lv_system_fixed_point_families (x y t a b g d e : Qc) :
  b ≠ 0 →
  lv_system [x; y] t a b g d e = inr [0; 0] ↔
  (x = 0 ∧ y = 0) ∨ (x = 0 ∧ e * y ^ 2 = d) ∨ (x = a / b ∧ y = 0) ∨
  (x = (a - g * y) / b ∧ b * e * y ^ 2 - g * y + a - b * d = 0).
Proof.
  intros Hb. rewrite lv_system_run, rates_eq. split.
  - intros [Hx Hy].
    apply Qcmult_integral in Hx as [->|Hx];
      apply Qcmult_integral in Hy as [->|Hy].
    + by left.
    + right; left. split; [done|]. symmetry. apply Qcminus_eq_0.
      rewrite <- Hy. ring.
    + right; right; left. split; [|done].
      assert (a = b * x) as -> by (apply Qcminus_eq_0; rewrite <- Hx; ring).
      by field.
    + right; right; right.
      assert (a - g * y = b * x) as ->
        by (apply Qcminus_eq_0; rewrite <- Hx; ring).
      split; [by field|].
      replace (b * e * y ^ 2 - g * y + a - b * d)
        with ((a - b * x - g * y) - b * (d - e * y ^ 2 - x)) by ring.
      rewrite Hx, Hy. ring.
  - intros [[-> ->]|[[-> <-]|[[-> ->]|[-> Hq]]]].
    + split; ring.
    + split; ring.
    + split; [by field|ring].
    + assert (Hy : d - e * y ^ 2 - (a - g * y) / b = 0).
      { assert (Hm : b * (d - e * y ^ 2 - (a - g * y) / b) = 0).
        { replace 0 with (- (b * e * y ^ 2 - g * y + a - b * d))
            by (rewrite Hq; ring).
          by field. }
        by apply Qcmult_integral in Hm as [?|?]. }
      rewrite Hy. split; [by field|ring].
Qed.

Lemma lv_system_fixed_point_families_witness :
  lv_system [frac 3 1; frac 0 1] (frac 0 1)
    (frac 3 1) (frac 1 1) (frac 3 1) (frac 5 1) (frac 1 2) = inr [0; 0] ↔
  (frac 3 1 = 0 ∧ frac 0 1 = 0) ∨
  (frac 3 1 = 0 ∧ frac 1 2 * frac 0 1 ^ 2 = frac 5 1) ∨
  (frac 3 1 = frac 3 1 / frac 1 1 ∧ frac 0 1 = 0) ∨
  (frac 3 1 = (frac 3 1 - frac 3 1 * frac 0 1) / frac 1 1 ∧
   frac 1 1 * frac 1 2 * frac 0 1 ^ 2 - frac 3 1 * frac 0 1 + frac 3 1
   - frac 1 1 * frac 5 1 = 0).
Proof. apply lv_system_fixed_point_families. done. Defined.

(** X19.  On exact numbers (Python integers and [Fraction]s) the system
    raises nothing but IndexError, and that exactly on a state of fewer than
    two entries; otherwise it returns two rates, which depend on the first
    two entries of the state only and not on the time. *)
Theorem lv_system_outcome (xs : list Qc) (t t' a b g d e : Qc) :
  match lv_system xs t a b g d e with
  | inl err => err = IndexError ∧ (length xs < 2)%nat
  | inr r => length r = 2%nat ∧ (2 ≤ length xs)%nat ∧
             lv_system (take 2 xs) t' a b g d e = inr r
  end.
Proof.
  destruct xs as [|x [|y l]]; [by split; [|simpl; lia]..|].
  cbn [take]. rewrite !lv_system_run. split; [done|]. split; [|done].
  simpl. lia.
Qed.

(** X20.  In exact arithmetic, for parameters and a state that are not
    negative, with [b > 0] and [e > 0]: the first rate is negative once [x]
    exceeds [a/b], that is [a < b*x], and the second rate is negative once
    [e*y^2] exceeds [d]. *)
Theorem lv_system_inward (x y t a b g d e : Qc) :
  0 ≤ a → 0 < b → 0 ≤ g → 0 ≤ d → 0 < e → 0 ≤ x → 0 ≤ y →
  ∃ u v, lv_system [x; y] t a b g d e = inr [u; v] ∧
    (a < b * x → u < 0) ∧ (d < e * y ^ 2 → v < 0).
Proof.
  intros Ha Hb Hg Hd He Hx Hy. rewrite lv_system_run.
  eexists _, _. split; [done|].
  rewrite !Qclt_Rlt_iff, !Q2R_Qc_mult, !Q2R_Qc_minus, !Q2R_Qc_mult,
    Q2R_Qc_pow, Q2R_Qc_0.
  apply Qcle_Rle_iff in Ha, Hg, Hd, Hx, Hy. apply Qclt_Rlt_iff in Hb, He.
  rewrite Q2R_Qc_0 in *.
  set (X := Q2R x) in *. set (Y := Q2R y) in *.
  set (ra := Q2R a) in *. set (rb := Q2R b) in *. set (rg := Q2R g) in *.
  set (rd := Q2R d) in *. set (re := Q2R e) in *.
  clearbody X Y ra rb rg rd re.
  assert (Hgy : (0 <= rg * Y)%R) by (by apply Rmult_le_pos).
  split; intros Hlt.
  - assert (0 < X)%R.
    { apply Rnot_le_lt. intros Hle.
      assert (0 <= rb * - X)%R by (apply Rmult_le_pos; lra). lra. }
    assert (ra - rb * X - rg * Y < 0)%R by lra. nra.
  - assert (0 < Y)%R.
    { apply Rnot_le_lt. intros Hle. assert (Y = 0)%R as -> by lra. lra. }
    assert (rd - re * Y ^ 2 - X < 0)%R by lra. nra.
Qed.

Lemma lv_system_inward_witness :
  ∃ u v, lv_system [frac 4 1; frac 4 1] (frac 0 1)
           (frac 3 1) (frac 1 1) (frac 3 1) (frac 5 1) (frac 1 2)
         = inr [u; v] ∧ u < 0 ∧ v < 0.
Proof.
  destruct (lv_system_inward (frac 4 1) (frac 4 1) (frac 0 1)
              (frac 3 1) (frac 1 1) (frac 3 1) (frac 5 1) (frac 1 2))
    as (u & v & Hrun & Hu & Hv); [done..|].
  exists u, v. split; [exact Hrun|]. split; [by apply Hu|by apply Hv].
Defined.
End CubicSystemFacts.
